(** * A redis watcher for casbin: model of [watcher.go] and its properties

    The watcher talks to a redis broker, to the Go runtime and to the
    callback of its owner, and its background goroutine never returns.  The
    methods of [watcher.go] are therefore written as interaction trees over
    the events the code performs; [run] executes a tree against a world
    that holds the [Watcher] structs, answers the events and records
    them. *)

From Stdlib Require Import String List ZArith Lia Bool Arith.
From Stdlib Require Import Strings.Byte Morphisms.
From ITree Require Import ITree ITreeFacts.
Import ListNotations.
Import ITreeNotations.
Local Open Scope itree_scope.
Local Open Scope string_scope.
Local Open Scope list_scope.

(** ** Data *)

(** A Go [error] value; [Error] is its message. *)
Record error : Type := errorString { Error : string }.

(** A live [redis.Conn]; a nil interface value is [None] at the use sites. *)
Record Conn : Type := conn { conn_id : nat }.

(** A non-nil [func(string)] value, known by its identity only. *)
Record Func : Type := func { func_id : nat }.

(** A pointer to a [Watcher] struct. *)
Definition ptr : Type := nat.

(** Modelled from the spec: the declaration of [WatcherOptions] is outside
    [watcher.go].  The spec gives it a channel name, a network protocol, an
    optional password and an optional pre-established connection; these are
    the four fields [watcher.go] reads, an empty password being none. *)
Record WatcherOptions : Type := {
  Channel : string;
  Protocol : string;
  Password : string;
  Connection : option Conn
}.

(** Modelled from the spec: the declaration of [WatcherOption] is outside
    [watcher.go], which calls a setter on a pointer to the options; the
    spec has the setters applied in order over the defaults, so a setter
    updates the options it is handed. *)
Definition WatcherOption : Type := WatcherOptions -> WatcherOptions.

Record Watcher : Type := {
  options : WatcherOptions;
  connection : option Conn;
  callback : option Func
}.

(** The zero values [WatcherOptions{}] and [Watcher{}]. *)
Definition WatcherOptions_zero : WatcherOptions :=
  {| Channel := ""; Protocol := ""; Password := ""; Connection := None |}.

Definition Watcher_zero : Watcher :=
  {| options := WatcherOptions_zero; connection := None; callback := None |}.

Definition set_options (o : WatcherOptions) (v : Watcher) : Watcher :=
  {| options := o; connection := connection v; callback := callback v |}.

Definition set_connection (c : option Conn) (v : Watcher) : Watcher :=
  {| options := options v; connection := c; callback := callback v |}.

Definition set_callback (f : option Func) (v : Watcher) : Watcher :=
  {| options := options v; connection := connection v; callback := f |}.

(** What redigo's [PubSubConn.Receive] hands back: one of its four message
    structs or an error. *)
Record Message : Type := { msg_Channel : string; Data : list byte }.
Record Subscription : Type :=
  { Kind : string; sub_Channel : string; Count : Z }.
Record PMessage : Type :=
  { Pattern : string; pmsg_Channel : string; pmsg_Data : list byte }.
Record Pong : Type := { pong_Data : string }.

Variant Received : Type :=
| RecvError (n : error)
| RecvMessage (n : Message)
| RecvSubscription (n : Subscription)
| RecvPMessage (n : PMessage)
| RecvPong (n : Pong).

(** The reply of [Conn.Do], an [interface{}] the watcher never inspects. *)
Variant Reply : Type :=
| ReplyNil
| ReplyInt (n : Z)
| ReplyBulk (b : list byte).

(** The one function literal started with [go], with the variable it
    captures. *)
Variant GoFunc : Type :=
| NewWatcher_func1 (w : ptr).

(** ** Events *)

(** Calls that leave the package: redigo, [fmt], [runtime], the [go]
    statement and the owner's callback. *)
Variant ioE : Type -> Type :=
| Dial (network address : string) : ioE (Conn + error)
| Do (c : Conn) (commandName : string) (args : list string)
    : ioE (Reply * option error)
| Close (c : Conn) : ioE (option error)
| Subscribe (c : Conn) (channel : list string) : ioE (option error)
| Unsubscribe (c : Conn) (channel : list string) : ioE (option error)
| Receive (c : Conn) : ioE Received
| Printf (format : string) (a : list error) : ioE unit
| Invoke (f : Func) (arg : string) : ioE unit
| SetFinalizer (obj : ptr) : ioE unit
| Go (f : GoFunc) : ioE unit.

(** Everything a method does besides computing: it allocates, reads and
    writes [Watcher] structs, calls out, or panics. *)
Variant goE : Type -> Type :=
| New (v : Watcher) : goE ptr
| Load (p : ptr) : goE Watcher
| Store (p : ptr) (v : Watcher) : goE unit
| IO {T} (e : ioE T) : goE T
| Panic (msg : string) : goE Empty_set.

Definition io {T} (e : ioE T) : itree goE T := ITree.trigger (IO e).

Definition panic {R} (msg : string) : itree goE R :=
  x <- ITree.trigger (Panic msg);; match x : Empty_set with end.

Definition nil_dereference : string :=
  "invalid memory address or nil pointer dereference".

(** A method call on an interface value, which panics on nil. *)
Definition on_conn {R} (c : option Conn) (k : Conn -> itree goE R)
  : itree goE R :=
  match c with
  | Some c => k c
  | None => panic nil_dereference
  end.

(** [for _, x := range l { body }] *)
Fixpoint range {A} (l : list A) (body : A -> itree goE unit)
  : itree goE unit :=
  match l with
  | [] => Ret tt
  | x :: l' => body x;; range l' body
  end.

(** [defer d] at the head of a body without [recover]: [d] runs when the
    body returns, and its result is dropped. *)
Definition defer {A R} (d : itree goE A) (body : itree goE R) : itree goE R :=
  r <- body;; d;; Ret r.

(** ** redigo's [PubSubConn] *)

Record PubSubConn : Type := { psc_Conn : option Conn }.

Definition psc_Subscribe (psc : PubSubConn) (channel : list string)
  : itree goE (option error) :=
  on_conn (psc_Conn psc) (fun c => io (Subscribe c channel)).

Definition psc_Unsubscribe (psc : PubSubConn) (channel : list string)
  : itree goE (option error) :=
  on_conn (psc_Conn psc) (fun c => io (Unsubscribe c channel)).

Definition psc_Receive (psc : PubSubConn) : itree goE Received :=
  on_conn (psc_Conn psc) (fun c => io (Receive c)).

(** ** The methods of [watcher.go] *)

(** [string(n.Data)] *)
Definition string_of_bytes (b : list byte) : string := string_of_list_byte b.

Definition SetUpdateCallback (w : ptr) (cb : option Func)
  : itree goE (option error) :=
  v <- ITree.trigger (Load w);;
  ITree.trigger (Store w (set_callback cb v));;
  Ret None.

Definition Update (w : ptr) : itree goE (option error) :=
  v <- ITree.trigger (Load w);;
  on_conn (connection v) (fun c =>
    r <- io (Do c "PUBLISH" [Channel (options v); "casbin rules updated"]);;
    match snd r with
    | Some err => Ret (Some err)
    | None => Ret None
    end).

Definition connect (w : ptr) (addr : string) : itree goE (option error) :=
  v <- ITree.trigger (Load w);;
  match Connection (options v) with
  | Some c =>
      ITree.trigger (Store w (set_connection (Some c) v));;
      Ret None
  | None =>
      r <- io (Dial (Protocol (options v)) addr);;
      match r with
      | inr err => Ret (Some err)
      | inl c =>
          let assign :=
            ITree.trigger (Store w (set_connection (Some c) v));;
            Ret None in
          if string_dec (Password (options v)) "" then assign
          else
            r <- io (Do c "AUTH" [Password (options v)]);;
            match snd r with
            | Some err => io (Close c);; Ret (Some err)
            | None => assign
            end
      end
  end.

(** One turn of the [for { switch n := psc.Receive().(type) ... } }] of
    [subscribe]: [inr] is a [return], [inl] goes round again. *)
Definition receive_body (w : ptr) (psc : PubSubConn) (_ : unit)
  : itree goE (unit + option error) :=
  n <- psc_Receive psc;;
  match n with
  | RecvError n => Ret (inr (Some n))
  | RecvMessage n =>
      v <- ITree.trigger (Load w);;
      match callback v with
      | Some f => io (Invoke f (string_of_bytes (Data n)));; Ret (inl tt)
      | None => Ret (inl tt)
      end
  | RecvSubscription n =>
      if (Count n =? 0)%Z then Ret (inr None) else Ret (inl tt)
  | RecvPMessage _ | RecvPong _ => Ret (inl tt)
  end.

Definition receive_loop (w : ptr) (psc : PubSubConn)
  : itree goE (option error) :=
  ITree.iter (receive_body w psc) tt.

(** [subscribe] from its [defer] on: what it still has to do once
    [psc.Subscribe] has succeeded. *)
Definition receiving (w : ptr) (psc : PubSubConn)
  : itree goE (option error) :=
  defer (psc_Unsubscribe psc []) (receive_loop w psc).

Definition subscribe (w : ptr) : itree goE (option error) :=
  v <- ITree.trigger (Load w);;
  let psc := {| psc_Conn := connection v |} in
  err <- psc_Subscribe psc [Channel (options v)];;
  match err with
  | Some err => Ret (Some err)
  | None => receiving w psc
  end.

Definition failure_format : string := "Failure from Redis subscription: %v".

(** [if err != nil { fmt.Printf(...) }] *)
Definition report (err : option error) : itree goE unit :=
  match err with
  | Some err => io (Printf failure_format [err])
  | None => Ret tt
  end.

(** One turn of the [for] of the goroutine. *)
Definition resubscribe (w : ptr) : itree goE unit :=
  err <- subscribe w;; report err.

(** The body of each function started with [go]; none of them returns. *)
Definition goroutine (f : GoFunc) : itree goE Empty_set :=
  match f with
  | NewWatcher_func1 w => ITree.forever (resubscribe w)
  end.

(** The goroutine while its current call of [subscribe] still has [rest] to
    run. *)
Definition goroutine_in (w : ptr) (rest : itree goE (option error))
  : itree goE Empty_set :=
  (err <- rest;; report err);; Tau (goroutine (NewWatcher_func1 w)).

Definition finalizer (w : ptr) : itree goE unit :=
  v <- ITree.trigger (Load w);;
  on_conn (connection v) (fun c => io (Close c));;
  Ret tt.

Definition default_options : WatcherOptions :=
  {| Channel := "/casbin"; Protocol := "tcp";
     Password := ""; Connection := None |}.

(** The call of one setter on [&w.options]. *)
Definition apply_setter (w : ptr) (setter : WatcherOption)
  : itree goE unit :=
  v <- ITree.trigger (Load w);;
  ITree.trigger (Store w (set_options (setter (options v)) v)).

(** The result is the pair [(persist.Watcher, error)]; [runtime.SetFinalizer]
    is always handed [finalizer]. *)
Definition NewWatcher (addr : string) (setters : list WatcherOption)
  : itree goE (option ptr * option error) :=
  w <- ITree.trigger (New Watcher_zero);;
  v <- ITree.trigger (Load w);;
  ITree.trigger (Store w (set_options default_options v));;
  range setters (apply_setter w);;
  err <- connect w addr;;
  match err with
  | Some err => Ret (None, Some err)
  | None =>
      io (SetFinalizer w);;
      io (Go (NewWatcher_func1 w));;
      Ret (Some w, None)
  end.

(** The struct under construction when [connect] is called. *)
Definition unconnected (o : WatcherOptions) : Watcher :=
  {| options := o; connection := None; callback := None |}.

(** ** The world and the execution of a tree in it *)

(** An event that left the package, with the answer it got. *)
Inductive Entry : Type :=
| Ev {T} (e : ioE T) (a : T).

(** The outside answers a call from the call and everything seen so far. *)
Definition Oracle : Type := forall T, ioE T -> list Entry -> T.

Record World : Type := {
  heap : list Watcher;
  oracle : Oracle;
  history : list Entry
}.

Definition alloc (v : Watcher) (W : World) : World :=
  {| heap := heap W ++ [v]; oracle := oracle W; history := history W |}.

Fixpoint update_nth {A} (n : nat) (x : A) (l : list A) : list A :=
  match l, n with
  | [], _ => []
  | _ :: l', 0 => x :: l'
  | y :: l', S n' => y :: update_nth n' x l'
  end.

Definition write (p : ptr) (v : Watcher) (W : World) : World :=
  {| heap := update_nth p v (heap W); oracle := oracle W;
     history := history W |}.

Definition answer {T} (W : World) (e : ioE T) : T :=
  oracle W _ e (history W).

(** The world after the calls [l], in this order. *)
Definition extend (l : list Entry) (W : World) : World :=
  {| heap := heap W; oracle := oracle W; history := history W ++ l |}.

(** The world after the call [e]. *)
Definition called {T} (e : ioE T) (W : World) : World :=
  extend [Ev e (answer W e)] W.

Variant Status (R : Type) : Type :=
| Done (r : R)
| Panicked (msg : string)
| Fault (p : ptr)
| Running.
Arguments Done {R} r.
Arguments Panicked {R} msg.
Arguments Fault {R} p.
Arguments Running {R}.

(** [run fuel t W] performs at most [fuel] steps of [t] from [W].  It is
    [Running] when the steps are used up before [t] returns. *)
Fixpoint run {R} (fuel : nat) (t : itree goE R) (W : World)
  : Status R * World :=
  match observe t with
  | RetF r => (Done r, W)
  | TauF t' =>
      match fuel with
      | 0 => (Running, W)
      | S n => run n t' W
      end
  | VisF e k =>
      match fuel with
      | 0 => (Running, W)
      | S n =>
          match e in goE T return (T -> itree goE R) -> Status R * World with
          | New v => fun k => run n (k (length (heap W))) (alloc v W)
          | Load p => fun k =>
              match nth_error (heap W) p with
              | Some v => run n (k v) W
              | None => (Fault p, W)
              end
          | Store p v => fun k =>
              match nth_error (heap W) p with
              | Some _ => run n (k tt) (write p v W)
              | None => (Fault p, W)
              end
          | IO e => fun k => run n (k (answer W e)) (called e W)
          | Panic msg => fun _ => (Panicked msg, W)
          end k
      end
  end.

(** ** Reading a history *)

Definition is_Close (x : Entry) : bool :=
  match x with
  | Ev e _ => match e with Close _ => true | _ => false end
  end.

Definition is_Invoke (x : Entry) : bool :=
  match x with
  | Ev e _ => match e with Invoke _ _ => true | _ => false end
  end.

Definition is_SetFinalizer (w : ptr) (x : Entry) : bool :=
  match x with
  | Ev e _ => match e with SetFinalizer obj => Nat.eqb obj w | _ => false end
  end.

Definition is_Go (x : Entry) : bool :=
  match x with
  | Ev e _ => match e with Go _ => true | _ => false end
  end.

Definition is_Dial (x : Entry) : bool :=
  match x with
  | Ev e _ => match e with Dial _ _ => true | _ => false end
  end.

Definition is_Do (x : Entry) : bool :=
  match x with
  | Ev e _ => match e with Do _ _ _ => true | _ => false end
  end.

Definition count (p : Entry -> bool) (l : list Entry) : nat :=
  length (filter p l).

Definition Conn_eq_dec (c c' : Conn) : {c = c'} + {c <> c'}.
Proof. decide equality. apply Nat.eq_dec. Defined.

(** The connections open after one more call: a successful [Dial] opens
    one, [Close] closes one. *)
Definition track (open : list Conn) (x : Entry) : list Conn :=
  match x with
  | Ev e a =>
      match e in ioE T return T -> list Conn with
      | Dial _ _ => fun a =>
          match a with
          | inl c => c :: open
          | inr _ => open
          end
      | Close c => fun _ => remove Conn_eq_dec c open
      | _ => fun _ => open
      end a
  end.

(** The connections that the calls [l] opened and did not close. *)
Definition left_open (l : list Entry) : list Conn := fold_left track l [].

(** The calls the goroutine of a watcher with the fields [v] and the
    connection [c] can make. *)
Definition goroutine_entry (v : Watcher) (c : Conn) (x : Entry) : Prop :=
  match x with
  | Ev e _ =>
      match e with
      | Subscribe c' channel => c' = c /\ channel = [Channel (options v)]
      | Unsubscribe c' channel => c' = c /\ channel = []
      | Receive c' => c' = c
      | Printf format a => format = failure_format /\ exists err, a = [err]
      | Invoke f _ => callback v = Some f
      | _ => False
      end
  end.

(** ** Options *)

(** The options [NewWatcher] ends up with: the setters applied in order,
    each to the result of the one before, starting from the defaults. *)
Definition resolve (setters : list WatcherOption) : WatcherOptions :=
  fold_left (fun o setter => setter o) setters default_options.

(** Modelled from the spec: what a setter of [options.go], which is not
    part of [watcher.go], can assign: the channel name, the network
    protocol, the password or the connection. *)
Variant Setting : Type :=
| SetChannel (s : string)
| SetProtocol (s : string)
| SetPassword (s : string)
| SetConnection (c : Conn).

(** Modelled from the spec: a setter assigns its one field and leaves the
    other fields as they are. *)
Definition assign (x : Setting) (o : WatcherOptions) : WatcherOptions :=
  match x with
  | SetChannel s =>
      {| Channel := s; Protocol := Protocol o;
         Password := Password o; Connection := Connection o |}
  | SetProtocol s =>
      {| Channel := Channel o; Protocol := s;
         Password := Password o; Connection := Connection o |}
  | SetPassword s =>
      {| Channel := Channel o; Protocol := Protocol o;
         Password := s; Connection := Connection o |}
  | SetConnection c =>
      {| Channel := Channel o; Protocol := Protocol o;
         Password := Password o; Connection := Some c |}
  end.

Module Setters.

(** Modelled from the spec: the option setters are declared outside
    [watcher.go].  The spec lists one for each of channel name, network
    protocol, password and caller-supplied connection, and the comment of
    [NewWatcher] names [Password], [Channel] and [WithRedisConnection].
    [Channel s] assigns the channel name. *)
Definition Channel (s : string) : WatcherOption := assign (SetChannel s).

(** Modelled from the spec: the setter of the network protocol, declared
    outside [watcher.go]. *)
Definition Protocol (s : string) : WatcherOption := assign (SetProtocol s).

(** Modelled from the spec: the setter of the password, declared outside
    [watcher.go]. *)
Definition Password (s : string) : WatcherOption := assign (SetPassword s).

(** Modelled from the spec: the setter of the pre-established connection,
    declared outside [watcher.go]. *)
Definition WithRedisConnection (c : Conn) : WatcherOption :=
  assign (SetConnection c).

End Setters.

Definition setter_of (x : Setting) : WatcherOption :=
  match x with
  | SetChannel s => Setters.Channel s
  | SetProtocol s => Setters.Protocol s
  | SetPassword s => Setters.Password s
  | SetConnection c => Setters.WithRedisConnection c
  end.

(** The setters of the settings [l] applied to [o], in order. *)
Definition apply_all (l : list Setting) (o : WatcherOptions)
  : WatcherOptions :=
  fold_left (fun o setter => setter o) (List.map setter_of l) o.

Definition is_SetChannel (x : Setting) : bool :=
  match x with SetChannel _ => true | _ => false end.

Definition is_SetProtocol (x : Setting) : bool :=
  match x with SetProtocol _ => true | _ => false end.

(** ** A sample outside *)

(** An outside that always gives the same answer to [Dial], to [Do] and to
    [Receive], and never fails otherwise. *)
Definition steady (d : Conn + error) (r : Reply * option error)
  (m : Received) : Oracle :=
  fun T e _ =>
    match e in ioE T return T with
    | Dial _ _ => d
    | Do _ _ _ => r
    | Close _ => None
    | Subscribe _ _ => None
    | Unsubscribe _ _ => None
    | Receive _ => m
    | Printf _ _ => tt
    | Invoke _ _ => tt
    | SetFinalizer _ => tt
    | Go _ => tt
    end.

Definition sample_error : error := errorString "connection refused".

Definition sample_message : Message :=
  {| msg_Channel := "/casbin";
     Data := list_byte_of_string "casbin rules updated" |}.

(** A watcher as [NewWatcher] leaves it, on connection 1. *)
Definition sample_watcher (cb : option Func) : Watcher :=
  {| options := default_options; connection := Some (conn 1);
     callback := cb |}.

Definition sample_world (o : Oracle) (cb : option Func) : World :=
  {| heap := [sample_watcher cb]; oracle := o; history := [] |}.

(** The two places where the goroutine of the watcher [w] on the
    connection [c] waits for the broker: before [psc.Subscribe] and before
    [psc.Receive]. *)
Variant at_loop (w : ptr) (c : Conn) : itree goE Empty_set -> Prop :=
| at_head : at_loop w c (goroutine (NewWatcher_func1 w))
| at_receiving :
    at_loop w c (goroutine_in w (receiving w {| psc_Conn := Some c |})).

(** [t] started in [W] returns [r] and leaves the world [W']. *)
Definition returns {R} (t : itree goE R) (W : World) (r : R) (W' : World)
  : Prop :=
  exists fuel, run fuel t W = (Done r, W').

(** [t] started in [W] gets to the point where [t'] is left to run in
    [W']: some number of steps of [t] lead there, whatever follows. *)
Definition evolves {R} (t : itree goE R) (W : World)
  (t' : itree goE R) (W' : World) : Prop :=
  exists k, forall n, run (k + n) t W = run n t' W'.

(** ** The goroutine's use of the connection *)

(** Whether the connection is subscribed after one more call of the
    goroutine, starting from [st]; [None] when the call is out of place:
    a [Subscribe] while subscribed, an [Unsubscribe], [Receive] or callback
    while not subscribed, a [Printf] while subscribed, or any other
    call. *)
Definition pubsub_step (st : option bool) (x : Entry) : option bool :=
  match st with
  | None => None
  | Some subscribed =>
      match x with
      | Ev e a =>
          match e in ioE T return T -> option bool with
          | Subscribe _ _ => fun a =>
              if subscribed then None
              else match a with
                   | None => Some true
                   | Some _ => Some false
                   end
          | Unsubscribe _ _ => fun _ =>
              if subscribed then Some false else None
          | Receive _ => fun _ => if subscribed then Some true else None
          | Invoke _ _ => fun _ => if subscribed then Some true else None
          | Printf _ _ => fun _ => if subscribed then None else Some false
          | _ => fun _ => None
          end a
      end
  end.

Definition pubsub_from (subscribed : bool) (l : list Entry) : option bool :=
  fold_left pubsub_step l (Some subscribed).

(** The place of the goroutine, with whether it is subscribed there. *)
Variant loop_state (w : ptr) (c : Conn)
  : bool -> itree goE Empty_set -> Prop :=
| state_head : loop_state w c false (goroutine (NewWatcher_func1 w))
| state_receiving :
    loop_state w c true
      (goroutine_in w (receiving w {| psc_Conn := Some c |})).

(** The struct of a watcher that [NewWatcher] has connected. *)
Definition connected (o : WatcherOptions) (c : Conn) : Watcher :=
  {| options := o; connection := Some c; callback := None |}.

(** The calls [NewWatcher] can make for the options [o], the address
    [addr] and the new pointer [w], with the connection it ends up with:
    it adopts a supplied connection; or its dial fails; or it dials without
    a password; or it dials and [AUTH] is rejected; or it dials and [AUTH]
    is accepted. *)
Variant construction (o : WatcherOptions) (addr : string) (w : ptr)
  : list Entry -> option Conn -> option error -> Prop :=
| construction_adopts c :
    Connection o = Some c ->
    construction o addr w
      [Ev (SetFinalizer w) tt; Ev (Go (NewWatcher_func1 w)) tt]
      (Some c) None
| construction_dial_fails err :
    Connection o = None ->
    construction o addr w
      [Ev (Dial (Protocol o) addr) (inr err)] None (Some err)
| construction_dials c :
    Connection o = None -> Password o = "" ->
    construction o addr w
      [Ev (Dial (Protocol o) addr) (inl c);
       Ev (SetFinalizer w) tt; Ev (Go (NewWatcher_func1 w)) tt]
      (Some c) None
| construction_auth_fails c r err a :
    Connection o = None -> Password o <> "" ->
    construction o addr w
      [Ev (Dial (Protocol o) addr) (inl c);
       Ev (Do c "AUTH" [Password o]) (r, Some err);
       Ev (Close c) a]
      None (Some err)
| construction_auth_passes c r :
    Connection o = None -> Password o <> "" ->
    construction o addr w
      [Ev (Dial (Protocol o) addr) (inl c);
       Ev (Do c "AUTH" [Password o]) (r, None);
       Ev (SetFinalizer w) tt; Ev (Go (NewWatcher_func1 w)) tt]
      (Some c) None.

(** ** Runs of messages and of failures *)

(** The calls of the receive loop that hands the messages [ms], in order,
    to the callback [f]. *)
Definition delivered (c : Conn) (f : Func) (ms : list Message)
  : list Entry :=
  flat_map (fun m => [Ev (Receive c) (RecvMessage m);
                      Ev (Invoke f (string_of_bytes (Data m))) tt]) ms.

(** The calls of [n] turns of the goroutine in which [psc.Subscribe]
    fails with [err]. *)
Definition failed_turns (c : Conn) (channel : string) (err : error)
  (n : nat) : list Entry :=
  concat (repeat [Ev (Subscribe c [channel]) (Some err);
                  Ev (Printf failure_format [err]) tt] n).

Definition is_Receive (x : Entry) : bool :=
  match x with
  | Ev e _ => match e with Receive _ => true | _ => false end
  end.

(** An outside that lets every call succeed and hands out the events
    [script] one [Receive] after the other, then fails every [Receive]. *)
Definition scripted (script : list Received) : Oracle :=
  fun T e h =>
    match e in ioE T return T with
    | Dial _ _ => inl (conn 1)
    | Do _ _ _ => (ReplyNil, None)
    | Close _ => None
    | Subscribe _ _ => None
    | Unsubscribe _ _ => None
    | Receive _ => nth (count is_Receive h) script (RecvError sample_error)
    | Printf _ _ => tt
    | Invoke _ _ => tt
    | SetFinalizer _ => tt
    | Go _ => tt
    end.

(** An outside like [steady], except that every [Subscribe] fails. *)
Definition unreachable (err : error) : Oracle :=
  fun T e h =>
    match e in ioE T return T with
    | Subscribe _ _ => Some err
    | e => steady (inl (conn 1)) (ReplyNil, None) (RecvError err) _ e h
    end.

(** ** Executing trees step by step *)

(** [run] sees a tree through [observe] only, so bisimilar trees run
    alike. *)
Lemma run_eq_itree {R} (fuel : nat) (t1 t2 : itree goE R) (W : World) :
  t1 ≅ t2 -> run fuel t1 W = run fuel t2 W.
Proof.
  revert t1 t2 W. induction fuel as [|n IH]; intros t1 t2 W H;
    apply eqit_inv in H; cbn in *; unfold observe in *;
    destruct (_observe t1) as [r1|u1|T1 e1 k1], (_observe t2) as [r2|u2|T2 e2 k2];
    cbn in H; try contradiction; try discriminate; subst; auto.
  all: destruct H as [p [He Hk]]; destruct p; cbn in He, Hk; subst e2.
  all: destruct e1; auto.
  all: try (destruct (nth_error (heap W) p)); auto.
  all: apply IH, Hk.
Qed.

#[global] Instance run_Proper {R} (fuel : nat) :
  Proper (eq_itree eq ==> eq ==> eq)%signature (@run R fuel).
Proof. intros t1 t2 H W W' <-. now apply run_eq_itree. Qed.

Section Steps.

Context {R : Type}.
Implicit Types (W : World) (n : nat).

Lemma run_ret n (r : R) W : run n (Ret r) W = (Done r, W).
Proof. destruct n; reflexivity. Qed.

Lemma run_tau n (t : itree goE R) W : run (S n) (Tau t) W = run n t W.
Proof. reflexivity. Qed.

Lemma run_load n p v (k : Watcher -> itree goE R) W :
  nth_error (heap W) p = Some v ->
  run (S n) (x <- ITree.trigger (Load p);; k x) W = run n (k v) W.
Proof. intros H. rewrite bind_trigger. cbn. now rewrite H. Qed.

Lemma run_store n p v v0 (k : unit -> itree goE R) W :
  nth_error (heap W) p = Some v0 ->
  run (S n) (x <- ITree.trigger (Store p v);; k x) W
  = run n (k tt) (write p v W).
Proof. intros H. rewrite bind_trigger. cbn. now rewrite H. Qed.

Lemma run_new n v (k : ptr -> itree goE R) W :
  run (S n) (x <- ITree.trigger (New v);; k x) W
  = run n (k (length (heap W))) (alloc v W).
Proof. rewrite bind_trigger. reflexivity. Qed.

Lemma run_io n T (e : ioE T) (k : T -> itree goE R) W :
  run (S n) (x <- io e;; k x) W = run n (k (answer W e)) (called e W).
Proof. unfold io. rewrite bind_trigger. reflexivity. Qed.

Lemma run_panic n msg W :
  run (S n) (panic msg : itree goE R) W = (Panicked msg, W).
Proof. reflexivity. Qed.

Lemma run_panic_bind n A msg (k : A -> itree goE R) W :
  run (S n) (x <- panic msg;; k x) W = (Panicked msg, W).
Proof. reflexivity. Qed.

End Steps.

(** A last call [e] of a body is the same as the call followed by a
    return. *)
Lemma run_io_last n T (e : ioE T) W :
  run (S n) (io e) W = (Done (answer W e), called e W).
Proof. destruct n; reflexivity. Qed.

(** More fuel does not change a run that has stopped. *)
Lemma run_more {R} n m (t : itree goE R) W s W' :
  run n t W = (s, W') -> s <> Running -> run (n + m) t W = (s, W').
Proof.
  revert t W. induction n as [|n IH]; intros t W H Hs; cbn in *.
  - destruct m; cbn in *; destruct (observe t); try exact H;
      inversion H; subst; congruence.
  - destruct (observe t) as [r|t'|T e k]; auto.
    destruct e; auto; destruct (nth_error (heap W) p); auto.
Qed.

Lemma returns_unique {R} (t : itree goE R) W r1 W1 r2 W2 :
  returns t W r1 W1 -> returns t W r2 W2 -> r1 = r2 /\ W1 = W2.
Proof.
  intros [n1 H1] [n2 H2].
  apply run_more with (m := n2) in H1; [|discriminate].
  apply run_more with (m := n1) in H2; [|discriminate].
  rewrite (Nat.add_comm n2 n1) in H2. rewrite H1 in H2.
  now inversion H2.
Qed.

(** A body that returns hands over to what is bound after it. *)
Lemma run_bind_done {R U} j (t : itree goE R) (k : R -> itree goE U) W r W' :
  run j t W = (Done r, W') ->
  exists j', forall n, run (j' + n) (x <- t;; k x) W = run n (k r) W'.
Proof.
  revert t W. induction j as [|j IH]; intros t W H.
  - exists 0. intros n. cbn in H. 
    rewrite unfold_bind.
    destruct (observe t); inversion H; subst.
    reflexivity.
  - cbn in H. 
    destruct (observe t) as [r0|t'|T e h] eqn:Ho.
    + inversion H; subst. exists 0. intros n. rewrite unfold_bind, Ho. reflexivity.
    + destruct (IH _ _ H) as [j' Hj']. exists (S j'). intros n.
      rewrite unfold_bind, Ho. cbn. apply Hj'.
    + destruct e.
      * destruct (IH _ _ H) as [j' Hj']. exists (S j'). intros n.
        rewrite unfold_bind, Ho. cbn. apply Hj'.
      * destruct (nth_error (heap W) p) eqn:Hp; [|discriminate].
        destruct (IH _ _ H) as [j' Hj']. exists (S j'). intros n.
        rewrite unfold_bind, Ho. cbn. rewrite Hp. apply Hj'.
      * destruct (nth_error (heap W) p) eqn:Hp; [|discriminate].
        destruct (IH _ _ H) as [j' Hj']. exists (S j'). intros n.
        rewrite unfold_bind, Ho. cbn. rewrite Hp. apply Hj'.
      * destruct (IH _ _ H) as [j' Hj']. exists (S j'). intros n.
        rewrite unfold_bind, Ho. cbn. apply Hj'.
      * discriminate.
Qed.

Lemma returns_bind {R U} (t : itree goE R) (k : R -> itree goE U) W r W' :
  returns t W r W' -> evolves (x <- t;; k x) W (k r) W'.
Proof. intros [j H]. exact (run_bind_done j t k W r W' H). Qed.

Lemma evolves_refl {R} (t : itree goE R) W : evolves t W t W.
Proof. now exists 0. Qed.

Lemma evolves_trans {R} (t1 t2 t3 : itree goE R) W1 W2 W3 :
  evolves t1 W1 t2 W2 -> evolves t2 W2 t3 W3 -> evolves t1 W1 t3 W3.
Proof.
  intros [k1 H1] [k2 H2]. exists (k1 + k2). intros n.
  now rewrite <- Nat.add_assoc, H1, H2.
Qed.

Lemma evolves_returns {R} (t t' : itree goE R) W W' r W'' :
  evolves t W t' W' -> returns t' W' r W'' -> returns t W r W''.
Proof. intros [k H] [n Hn]. exists (k + n). now rewrite H. Qed.

Lemma evolves_eq_itree {R} (t1 t2 u1 u2 : itree goE R) W W' :
  t1 ≅ t2 -> u1 ≅ u2 -> evolves t1 W u1 W' -> evolves t2 W u2 W'.
Proof.
  intros Ht Hu [k H]. exists k. intros n.
  now rewrite <- Ht, <- Hu.
Qed.

(** ** Worlds *)

Lemma extend_extend l1 l2 W : extend l2 (extend l1 W) = extend (l1 ++ l2) W.
Proof. unfold extend; cbn. now rewrite app_assoc. Qed.

Lemma called_unit (e : ioE unit) W : called e W = extend [Ev e tt] W.
Proof. unfold called. now destruct (answer W e). Qed.

Lemma called_answer {T} (e : ioE T) a W :
  answer W e = a -> called e W = extend [Ev e a] W.
Proof. now intros <-. Qed.

(** Symbolic execution: normalise the binds at the head of the tree and
    take the step that shows. *)
Ltac load_with H :=
  match type of H with
  | nth_error _ ?p = Some ?v => rewrite (run_load _ p v) by exact H
  end.

Ltac exec :=
  repeat first
    [ rewrite bind_bind
    | rewrite bind_ret_l
    | rewrite bind_tau
    | rewrite run_tau
    | rewrite run_io
    | rewrite run_ret ].

(** ** The receive loop *)

Lemma receive_loop_unfold w psc :
  receive_loop w psc
  ≅ lr <- receive_body w psc tt;;
    match lr with
    | inl _ => Tau (receive_loop w psc)
    | inr r => Ret r
    end.
Proof.
  unfold receive_loop. rewrite unfold_iter at 1.
  apply eqit_bind; [reflexivity|]. intros [[]|r]; reflexivity.
Qed.

Section ReceiveLoop.

Context {R : Type} (W : World) (w : ptr) (v : Watcher) (c : Conn).
Context (K : option error -> itree goE R).
Hypothesis Hw : nth_error (heap W) w = Some v.

Let psc := {| psc_Conn := Some c |}.
Let loop := x <- receive_loop w psc;; K x.

Ltac enter :=
  intros n; unfold loop at 1; rewrite receive_loop_unfold at 1;
  unfold receive_body, psc_Receive; cbn [on_conn psc_Conn psc Nat.add];
  exec.

(** A message with a callback registered: the callback is called with the
    payload, and the loop goes round. *)
Lemma receive_message_callback m f :
  answer W (Receive c) = RecvMessage m -> callback v = Some f ->
  evolves loop W loop
    (extend [Ev (Receive c) (RecvMessage m);
             Ev (Invoke f (string_of_bytes (Data m))) tt] W).
Proof.
  intros Hm Hcb. exists 4. enter. rewrite Hm. exec. load_with Hw.
  rewrite Hcb. exec.
  now rewrite called_unit, (called_answer _ _ _ Hm), extend_extend.
Qed.

(** A message with no callback registered: the loop goes round. *)
Lemma receive_message_nil m :
  answer W (Receive c) = RecvMessage m -> callback v = None ->
  evolves loop W loop (extend [Ev (Receive c) (RecvMessage m)] W).
Proof.
  intros Hm Hcb. exists 3. enter. rewrite Hm. exec. load_with Hw.
  rewrite Hcb. exec. now rewrite (called_answer _ _ _ Hm).
Qed.

(** An error: the loop is left with the error. *)
Lemma receive_error err :
  answer W (Receive c) = RecvError err ->
  evolves loop W (K (Some err)) (extend [Ev (Receive c) (RecvError err)] W).
Proof.
  intros Hm. exists 1. enter. rewrite Hm. exec.
  now rewrite (called_answer _ _ _ Hm).
Qed.

(** A subscription count of zero: the loop is left with nil. *)
Lemma receive_count_zero s :
  answer W (Receive c) = RecvSubscription s -> Count s = 0%Z ->
  evolves loop W (K None) (extend [Ev (Receive c) (RecvSubscription s)] W).
Proof.
  intros Hm Hs. exists 1. enter. rewrite Hm, Hs. cbn [Z.eqb]. exec.
  now rewrite (called_answer _ _ _ Hm).
Qed.

(** Anything else: the loop goes round. *)
Lemma receive_other a :
  answer W (Receive c) = a ->
  match a with
  | RecvSubscription s => Count s <> 0%Z
  | RecvPMessage _ | RecvPong _ => True
  | _ => False
  end ->
  evolves loop W loop (extend [Ev (Receive c) a] W).
Proof.
  intros Hm Ha. exists 2. enter. rewrite Hm.
  destruct a as [| |s| |]; try contradiction.
  - apply Z.eqb_neq in Ha. rewrite Ha. exec.
    now rewrite (called_answer _ _ _ Hm).
  - exec. now rewrite (called_answer _ _ _ Hm).
  - exec. now rewrite (called_answer _ _ _ Hm).
Qed.

End ReceiveLoop.


(** ** The goroutine *)

Lemma goroutine_unfold w :
  goroutine (NewWatcher_func1 w)
  ≅ resubscribe w;; Tau (goroutine (NewWatcher_func1 w)).
Proof. cbn [goroutine]. now rewrite unfold_forever at 1. Qed.

Lemma goroutine_in_receiving w psc :
  goroutine_in w (receiving w psc)
  ≅ x <- receive_loop w psc;;
    goroutine_in w (psc_Unsubscribe psc [];; Ret x).
Proof.
  unfold goroutine_in, receiving, defer. rewrite !bind_bind.
  apply eqit_bind; [reflexivity|]. intros x. now rewrite !bind_bind.
Qed.

Section Goroutine.

Context (W : World) (w : ptr) (v : Watcher) (c : Conn).
Hypothesis Hw : nth_error (heap W) w = Some v.
Hypothesis Hc : connection v = Some c.

Let psc := {| psc_Conn := Some c |}.
Let head := goroutine (NewWatcher_func1 w).
Let subscribe_call := Subscribe c [Channel (options v)].

Ltac enter :=
  intros n; unfold head at 1; rewrite goroutine_unfold at 1;
  unfold resubscribe, subscribe; cbn [Nat.add]; exec; load_with Hw;
  rewrite Hc; unfold psc_Subscribe; cbn [on_conn psc_Conn]; exec.

(** [psc.Subscribe] succeeds: the goroutine is receiving. *)
Lemma goroutine_subscribes :
  answer W subscribe_call = None ->
  evolves head W (goroutine_in w (receiving w psc))
    (extend [Ev subscribe_call None] W).
Proof.
  intros Ha. exists 2. enter. fold subscribe_call. rewrite Ha.
  rewrite (called_answer _ _ _ Ha). unfold goroutine_in. now rewrite bind_bind.
Qed.

(** [psc.Subscribe] fails: the failure is printed and the [for] goes
    round. *)
Lemma goroutine_subscribe_fails err :
  answer W subscribe_call = Some err ->
  evolves head W head
    (extend [Ev subscribe_call (Some err);
             Ev (Printf failure_format [err]) tt] W).
Proof.
  intros Ha. exists 4. enter. fold subscribe_call. rewrite Ha. exec.
  unfold report. exec.
  now rewrite called_unit, (called_answer _ _ _ Ha), extend_extend.
Qed.

(** [subscribe] returns [r]: the deferred [psc.Unsubscribe] runs, its
    result is dropped, [r] is printed when it is an error, and the [for]
    goes round. *)
Lemma goroutine_leaves r :
  evolves (goroutine_in w (psc_Unsubscribe psc [];; Ret r)) W head
    (extend (Ev (Unsubscribe c []) (answer W (Unsubscribe c [])) ::
             match r with
             | Some err => [Ev (Printf failure_format [err]) tt]
             | None => []
             end) W).
Proof.
  destruct r as [err|].
  - exists 3. intros n. unfold goroutine_in, psc_Unsubscribe, report.
    cbn [on_conn psc_Conn psc Nat.add]. exec.
    rewrite called_unit. unfold called. now rewrite extend_extend.
  - exists 2. intros n. unfold goroutine_in, psc_Unsubscribe, report.
    cbn [on_conn psc_Conn psc Nat.add]. exec. reflexivity.
Qed.

End Goroutine.


(** ** Histories only grow *)

Lemma extend_nil W : extend [] W = W.
Proof. destruct W. unfold extend. cbn. now rewrite app_nil_r. Qed.

(** A goroutine cannot have returned. *)
Lemma run_zero (t : itree goE Empty_set) W : run 0 t W = (Running, W).
Proof. cbn. destruct (observe t) as [[]| |]; reflexivity. Qed.

(** A run adds at most one call per step to the history. *)
Lemma run_history {R} n : forall (t : itree goE R) W,
  exists l, history (snd (run n t W)) = history W ++ l /\ length l <= n.
Proof.
  induction n as [|n IH]; intros t W; cbn.
  - exists []. rewrite app_nil_r. destruct (observe t); auto.
  - destruct (observe t) as [r|t'|T e k].
    + exists []. rewrite app_nil_r. cbn. split; [reflexivity|lia].
    + destruct (IH t' W) as [l [Hl Hn]]. exists l. split; [exact Hl|lia].
    + destruct e.
      * destruct (IH (k (length (heap W))) (alloc v W)) as [l [Hl Hn]].
        exists l. split; [exact Hl|lia].
      * destruct (nth_error (heap W) p) as [v|].
        -- destruct (IH (k v) W) as [l [Hl Hn]].
           exists l. split; [exact Hl|lia].
        -- exists []. rewrite app_nil_r. cbn. split; [reflexivity|lia].
      * destruct (nth_error (heap W) p) as [v0|].
        -- destruct (IH (k tt) (write p v W)) as [l [Hl Hn]].
           exists l. split; [exact Hl|lia].
        -- exists []. rewrite app_nil_r. cbn. split; [reflexivity|lia].
      * destruct (IH (k (answer W e)) (called e W)) as [l [Hl Hn]].
        exists (Ev e (answer W e) :: l). rewrite Hl. cbn.
        rewrite <- app_assoc. split; [reflexivity|lia].
      * exists []. rewrite app_nil_r. cbn. split; [reflexivity|lia].
Qed.

(** What a run has recorded stays when it is given more steps. *)
Lemma run_prefix {R} n m : forall (t : itree goE R) W,
  exists l,
    history (snd (run (n + m) t W)) = history (snd (run n t W)) ++ l.
Proof.
  induction n as [|n IH]; intros t W.
  - destruct (run_history m t W) as [l [Hl _]]. exists l.
    change (0 + m) with m. rewrite Hl. cbn.
    destruct (observe t); reflexivity.
  - cbn. destruct (observe t) as [r|t'|T e k].
    + exists []. now rewrite app_nil_r.
    + apply IH.
    + destruct e; try apply IH.
      * destruct (nth_error (heap W) p); [apply IH|].
        exists []. now rewrite app_nil_r.
      * destruct (nth_error (heap W) p); [apply IH|].
        exists []. now rewrite app_nil_r.
      * exists []. now rewrite app_nil_r.
Qed.

(** ** The goroutine, turn after turn *)

Section Turns.

Context (w : ptr) (v : Watcher) (c : Conn).
Hypothesis Hc : connection v = Some c.

Let psc := {| psc_Conn := Some c |}.
Let head := goroutine (NewWatcher_func1 w).

Let leaving (x : option error) : itree goE Empty_set :=
  goroutine_in w (psc_Unsubscribe psc [];; Ret x).

Lemma receiving_evolves W t' W' :
  evolves (x <- receive_loop w psc;; leaving x) W t' W' ->
  evolves (goroutine_in w (receiving w psc)) W t' W'.
Proof.
  apply evolves_eq_itree; [|reflexivity].
  symmetry. apply goroutine_in_receiving.
Qed.

Lemma receiving_again W W' :
  evolves (x <- receive_loop w psc;; leaving x) W
          (x <- receive_loop w psc;; leaving x) W' ->
  evolves (goroutine_in w (receiving w psc)) W
          (goroutine_in w (receiving w psc)) W'.
Proof.
  apply evolves_eq_itree; symmetry; apply goroutine_in_receiving.
Qed.

(** From either place the goroutine makes at least one call, only calls
    of its own kind, and is at one of the two places again. *)
Lemma goroutine_turn W t :
  nth_error (heap W) w = Some v -> at_loop w c t ->
  exists t' l,
    at_loop w c t' /\ evolves t W t' (extend l W) /\ l <> [] /\
    Forall (goroutine_entry v c) l.
Proof.
  intros Hw [|].
  - destruct (answer W (Subscribe c [Channel (options v)])) as [err|] eqn:Ha.
    + exists head, [Ev (Subscribe c [Channel (options v)]) (Some err);
                    Ev (Printf failure_format [err]) tt].
      split; [constructor|]. split.
      { now apply goroutine_subscribe_fails. }
      split; [discriminate|].
      repeat constructor. now exists err.
    + exists (goroutine_in w (receiving w psc)),
        [Ev (Subscribe c [Channel (options v)]) None].
      split; [constructor|]. split.
      { now apply goroutine_subscribes. }
      split; [discriminate|]. repeat constructor.
  - destruct (answer W (Receive c)) as [err|m|s|pm|pg] eqn:Ha.
    + pose (W1 := extend [Ev (Receive c) (RecvError err)] W).
      exists head,
        ([Ev (Receive c) (RecvError err)] ++
         [Ev (Unsubscribe c []) (answer W1 (Unsubscribe c []));
          Ev (Printf failure_format [err]) tt]).
      split; [constructor|]. split.
      { apply receiving_evolves. eapply evolves_trans.
        - eapply receive_error; eassumption.
        - rewrite <- extend_extend.
          apply (goroutine_leaves W1 w c (Some err)). }
      split; [discriminate|].
      repeat constructor. now exists err.
    + destruct (callback v) as [f|] eqn:Hcb.
      * exists (goroutine_in w (receiving w psc)). eexists.
        split; [constructor|]. split.
        { apply receiving_again. eapply receive_message_callback; eassumption. }
        split; [discriminate|]. repeat constructor. exact Hcb.
      * exists (goroutine_in w (receiving w psc)). eexists.
        split; [constructor|]. split.
        { apply receiving_again. eapply receive_message_nil; eassumption. }
        split; [discriminate|]. repeat constructor.
    + destruct (Z.eq_dec (Count s) 0) as [Hs|Hs].
      * pose (W1 := extend [Ev (Receive c) (RecvSubscription s)] W).
        exists head,
          ([Ev (Receive c) (RecvSubscription s)] ++
           [Ev (Unsubscribe c []) (answer W1 (Unsubscribe c []))]).
        split; [constructor|]. split.
        { apply receiving_evolves. eapply evolves_trans.
          - eapply receive_count_zero; eassumption.
          - rewrite <- extend_extend.
            apply (goroutine_leaves W1 w c None). }
        split; [discriminate|]. repeat constructor.
      * exists (goroutine_in w (receiving w psc)). eexists.
        split; [constructor|]. split.
        { apply receiving_again. eapply receive_other; eassumption. }
        split; [discriminate|]. repeat constructor.
    + exists (goroutine_in w (receiving w psc)). eexists.
      split; [constructor|]. split.
      { apply receiving_again. eapply receive_other; [eassumption|exact I]. }
      split; [discriminate|]. repeat constructor.
    + exists (goroutine_in w (receiving w psc)). eexists.
      split; [constructor|]. split.
      { apply receiving_again. eapply receive_other; [eassumption|exact I]. }
      split; [discriminate|]. repeat constructor.
Qed.

(** So it makes as many calls as one cares to wait for. *)
Lemma goroutine_turns N : forall W t,
  nth_error (heap W) w = Some v -> at_loop w c t ->
  exists t' l,
    at_loop w c t' /\ evolves t W t' (extend l W) /\ N <= length l /\
    Forall (goroutine_entry v c) l.
Proof.
  induction N as [|N IH]; intros W t Hw Ht.
  - exists t, []. rewrite extend_nil.
    repeat split; [exact Ht|apply evolves_refl|cbn; lia|constructor].
  - destruct (IH W t Hw Ht) as [t1 [l1 [Ht1 [H1 [HN Hl1]]]]].
    destruct (goroutine_turn (extend l1 W) t1 Hw Ht1)
      as [t2 [l2 [Ht2 [H2 [Hne Hl2]]]]].
    exists t2, (l1 ++ l2). split; [exact Ht2|]. split.
    { rewrite <- extend_extend. eapply evolves_trans; eassumption. }
    split.
    { rewrite length_app. destruct l2; [congruence|cbn; lia]. }
    apply Forall_app. now split.
Qed.

(** It runs for ever: it is still running after any number of steps, with
    nothing but calls of its own kind made, and there is no bound on the
    calls it makes. *)
Lemma goroutine_forever W t :
  nth_error (heap W) w = Some v -> at_loop w c t ->
  (forall fuel,
     fst (run fuel t W) = Running /\
     exists l, history (snd (run fuel t W)) = history W ++ l /\
               Forall (goroutine_entry v c) l) /\
  (forall N, exists fuel l,
     run fuel t W = (Running, extend l W) /\ N <= length l).
Proof.
  intros Hw Hat. split.
  - intros fuel.
    destruct (goroutine_turns (S fuel) W t Hw Hat)
      as [t' [l [Ht [[k Hk] [HN Hl]]]]].
    specialize (Hk 0). rewrite Nat.add_0_r, run_zero in Hk.
    assert (Hlt : fuel < k).
    { destruct (run_history k t W) as [l' [Hh Hlen]].
      rewrite Hk in Hh. cbn in Hh. apply app_inv_head in Hh. subst l'. lia. }
    split.
    + destruct (run fuel t W) as [s W1] eqn:Hrun. cbn.
      destruct s; try reflexivity.
      all: apply run_more with (m := k - fuel) in Hrun; [|discriminate].
      all: replace (fuel + (k - fuel)) with k in Hrun by lia.
      all: rewrite Hk in Hrun; discriminate.
    + destruct (run_history fuel t W) as [l1 [H1 _]].
      destruct (run_prefix fuel (k - fuel) t W) as [l2 H2].
      replace (fuel + (k - fuel)) with k in H2 by lia.
      rewrite Hk, H1 in H2. cbn in H2. rewrite <- app_assoc in H2.
      apply app_inv_head in H2. subst l.
      exists l1. split; [exact H1|]. now apply Forall_app in Hl.
  - intros N.
    destruct (goroutine_turns N W t Hw Hat)
      as [t' [l [Ht [[k Hk] [HN Hl]]]]].
    exists k, l. specialize (Hk 0).
    rewrite Nat.add_0_r, run_zero in Hk. now split.
Qed.

End Turns.


(** ** The heap *)

Lemma nth_error_last {A} (l : list A) x :
  nth_error (l ++ [x]) (length l) = Some x.
Proof. rewrite nth_error_app2, Nat.sub_diag; [reflexivity|lia]. Qed.

Lemma update_nth_last {A} (l : list A) x y :
  update_nth (length l) y (l ++ [x]) = l ++ [y].
Proof. induction l as [|z l IH]; cbn; [reflexivity|now rewrite IH]. Qed.

Lemma load_alloc W v p :
  p = length (heap W) -> nth_error (heap (alloc v W)) p = Some v.
Proof. intros ->. apply nth_error_last. Qed.

Lemma write_alloc W v v' p :
  p = length (heap W) -> write p v' (alloc v W) = alloc v' W.
Proof. intros ->. unfold write, alloc. cbn. now rewrite update_nth_last. Qed.

Lemma called_alloc {T} (e : ioE T) v W :
  called e (alloc v W) = alloc v (called e W).
Proof. reflexivity. Qed.

Lemma answer_alloc {T} (e : ioE T) v W : answer (alloc v W) e = answer W e.
Proof. reflexivity. Qed.

(** Run a load or a store of the struct allocated last. *)
Ltac exec_last v :=
  first [ rewrite (run_load _ _ v) by (apply load_alloc; reflexivity)
        | rewrite (run_store _ _ _ v) by (apply load_alloc; reflexivity);
          rewrite write_alloc by reflexivity ].

(** ** The constructor *)

(** The [range] over the setters leaves the options with every setter
    applied, in order. *)
Lemma range_setters setters : forall W v,
  returns (range setters (apply_setter (length (heap W)))) (alloc v W) tt
    (alloc
       (set_options (fold_left (fun o setter => setter o) setters (options v))
          v) W).
Proof.
  induction setters as [|setter setters IH]; intros W v.
  - exists 0. cbn. now destruct v.
  - cbn [range fold_left].
    apply evolves_returns
      with (t' := range setters (apply_setter (length (heap W))))
           (W' := alloc (set_options (setter (options v)) v) W).
    + exists 2. intros n. unfold apply_setter. cbn [Nat.add]. exec.
      exec_last v. exec. exec_last v. reflexivity.
    + apply (IH W (set_options (setter (options v)) v)).
Qed.

(** Up to [connect], the constructor only sets up the options. *)
Lemma NewWatcher_options addr setters W :
  evolves (NewWatcher addr setters) W
    (err <- connect (length (heap W)) addr;;
     match err with
     | Some err => Ret (None, Some err)
     | None =>
         io (SetFinalizer (length (heap W)));;
         io (Go (NewWatcher_func1 (length (heap W))));;
         Ret (Some (length (heap W)), None)
     end)
    (alloc (unconnected (resolve setters)) W).
Proof.
  apply evolves_trans
    with (t2 := range setters (apply_setter (length (heap W)));;
                err <- connect (length (heap W)) addr;;
                match err with
                | Some err => Ret (None, Some err)
                | None =>
                    io (SetFinalizer (length (heap W)));;
                    io (Go (NewWatcher_func1 (length (heap W))));;
                    Ret (Some (length (heap W)), None)
                end)
         (W2 := alloc (set_options default_options Watcher_zero) W).
  - exists 3. intros n. unfold NewWatcher. cbn [Nat.add].
    rewrite run_new. exec_last Watcher_zero. exec. exec_last Watcher_zero.
    reflexivity.
  - exact (returns_bind _
             (fun _ : unit =>
                err <- connect (length (heap W)) addr;;
                match err with
                | Some err => Ret (None, Some err)
                | None =>
                    io (SetFinalizer (length (heap W)));;
                    io (Go (NewWatcher_func1 (length (heap W))));;
                    Ret (Some (length (heap W)), None)
                end) _ _ _
             (range_setters setters W
                (set_options default_options Watcher_zero))).
Qed.

Section Connect.

Context (W : World) (v : Watcher) (addr : string).

Let dial := Dial (Protocol (options v)) addr.
Let auth c := Do c "AUTH" [Password (options v)].

Ltac enter := unfold connect; exec; exec_last v.

(** A connection in the options is taken over; nothing is called. *)
Lemma connect_adopts c :
  Connection (options v) = Some c ->
  returns (connect (length (heap W)) addr) (alloc v W) None
    (alloc (set_connection (Some c) v) W).
Proof.
  intros Hc. exists 2. enter.
  rewrite Hc. exec. exec_last v. now exec.
Qed.

Lemma connect_dial_fails err :
  Connection (options v) = None -> answer W dial = inr err ->
  returns (connect (length (heap W)) addr) (alloc v W) (Some err)
    (alloc v (extend [Ev dial (inr err)] W)).
Proof.
  intros Hc Hd. exists 2. enter.
  rewrite Hc. exec. rewrite answer_alloc.
  fold dial. rewrite Hd. exec.
  now rewrite <- (called_answer _ _ _ Hd).
Qed.

Lemma connect_no_password c :
  Connection (options v) = None -> answer W dial = inl c ->
  Password (options v) = "" ->
  returns (connect (length (heap W)) addr) (alloc v W) None
    (alloc (set_connection (Some c) v) (extend [Ev dial (inl c)] W)).
Proof.
  intros Hc Hd Hp. exists 3. enter.
  rewrite Hc. exec. rewrite answer_alloc.
  fold dial. rewrite Hd, Hp. cbn [string_dec string_rec string_rect].
  cbv zeta. exec.
  rewrite called_alloc.
  exec_last v. exec.
  now rewrite <- (called_answer _ _ _ Hd).
Qed.

Lemma connect_auth_fails c r err :
  Connection (options v) = None -> answer W dial = inl c ->
  Password (options v) <> "" ->
  answer (extend [Ev dial (inl c)] W) (auth c) = (r, Some err) ->
  returns (connect (length (heap W)) addr) (alloc v W) (Some err)
    (alloc v
       (extend [Ev dial (inl c); Ev (auth c) (r, Some err);
                Ev (Close c)
                  (answer (extend [Ev dial (inl c); Ev (auth c) (r, Some err)]
                             W) (Close c))] W)).
Proof.
  intros Hc Hd Hp Ha. exists 4. enter.
  rewrite Hc. exec. rewrite answer_alloc.
  fold dial. rewrite Hd.
  destruct (string_dec (Password (options v)) "") as [|_]; [contradiction|].
  exec.
  rewrite called_alloc.
  rewrite (called_answer _ _ _ Hd).
  rewrite answer_alloc.
  fold (auth c). rewrite Ha. cbn [snd]. exec.
  rewrite ?called_alloc.
  rewrite (called_answer _ _ _ Ha), extend_extend. cbn [app].
  unfold called. rewrite extend_extend. reflexivity.
Qed.

Lemma connect_auth_passes c r :
  Connection (options v) = None -> answer W dial = inl c ->
  Password (options v) <> "" ->
  answer (extend [Ev dial (inl c)] W) (auth c) = (r, None) ->
  returns (connect (length (heap W)) addr) (alloc v W) None
    (alloc (set_connection (Some c) v)
       (extend [Ev dial (inl c); Ev (auth c) (r, None)] W)).
Proof.
  intros Hc Hd Hp Ha. exists 4. enter.
  rewrite Hc. exec. rewrite answer_alloc.
  fold dial. rewrite Hd.
  destruct (string_dec (Password (options v)) "") as [|_]; [contradiction|].
  exec.
  rewrite called_alloc.
  rewrite (called_answer _ _ _ Hd).
  rewrite answer_alloc.
  fold (auth c). rewrite Ha. cbn [snd]. cbv zeta. exec.
  rewrite ?called_alloc.
  exec_last v. exec.
  now rewrite (called_answer _ _ _ Ha), extend_extend.
Qed.

End Connect.


Lemma returns_then {R U} (t : itree goE R) (k : R -> itree goE U)
  W r W' r' W'' :
  returns t W r W' -> returns (k r) W' r' W'' ->
  returns (x <- t;; k x) W r' W''.
Proof.
  intros Ht Hk. eapply evolves_returns; [|exact Hk].
  now apply returns_bind.
Qed.

Lemma extend_alloc l v W : extend l (alloc v W) = alloc v (extend l W).
Proof. reflexivity. Qed.

Section Construction.

Context (addr : string) (setters : list WatcherOption) (W : World).

(** When [connect] fails, the constructor returns its error and does
    nothing more. *)
Lemma NewWatcher_fails err X :
  returns (connect (length (heap W)) addr)
    (alloc (unconnected (resolve setters)) W) (Some err) X ->
  returns (NewWatcher addr setters) W (None, Some err) X.
Proof.
  intros H. eapply evolves_returns; [apply NewWatcher_options|].
  eapply returns_then; [exact H|]. now exists 0.
Qed.

(** When [connect] succeeds, the constructor registers the finalizer,
    starts the goroutine and returns the watcher. *)
Lemma NewWatcher_succeeds v l :
  returns (connect (length (heap W)) addr)
    (alloc (unconnected (resolve setters)) W) None (alloc v (extend l W)) ->
  returns (NewWatcher addr setters) W (Some (length (heap W)), None)
    (alloc v
       (extend (l ++ [Ev (SetFinalizer (length (heap W))) tt;
                      Ev (Go (NewWatcher_func1 (length (heap W)))) tt]) W)).
Proof.
  intros H. eapply evolves_returns; [apply NewWatcher_options|].
  eapply returns_then; [exact H|]. exists 2. exec.
  now rewrite !called_unit, extend_extend, extend_alloc, extend_extend.
Qed.

End Construction.

(** Every way [NewWatcher] can go: it always returns; the struct it
    built has the resolved options and no callback; on success it has a
    connection, and the last two calls, and only they, register the
    finalizer and start the goroutine; on failure no goroutine is
    started. *)
Lemma NewWatcher_cases addr setters W :
  exists r v l,
    returns (NewWatcher addr setters) W r (alloc v (extend l W)) /\
    options v = resolve setters /\ callback v = None /\
    ((exists c pre,
        r = (Some (length (heap W)), None) /\ connection v = Some c /\
        l = pre ++ [Ev (SetFinalizer (length (heap W))) tt;
                    Ev (Go (NewWatcher_func1 (length (heap W)))) tt] /\
        count is_Close pre = 0 /\
        count (is_SetFinalizer (length (heap W))) pre = 0) \/
     (exists err, r = (None, Some err) /\ count is_Go l = 0)).
Proof.
  set (o := resolve setters). set (w := length (heap W)).
  destruct (Connection o) as [c|] eqn:Hc.
  { exists (Some w, None), (set_connection (Some c) (unconnected o)).
    exists ([] ++ [Ev (SetFinalizer w) tt; Ev (Go (NewWatcher_func1 w)) tt]).
    split.
    - apply NewWatcher_succeeds. rewrite extend_nil.
      apply connect_adopts. exact Hc.
    - repeat split. left. exists c, []. repeat split. }
  destruct (answer W (Dial (Protocol o) addr)) as [c|err] eqn:Hd.
  2: { exists (None, Some err), (unconnected o).
       exists [Ev (Dial (Protocol o) addr) (inr err)]. split.
       - apply NewWatcher_fails. apply connect_dial_fails; eassumption.
       - repeat split. right. exists err. split; reflexivity. }
  destruct (string_dec (Password o) "") as [Hp|Hp].
  { exists (Some w, None), (set_connection (Some c) (unconnected o)).
    exists ([Ev (Dial (Protocol o) addr) (inl c)] ++
            [Ev (SetFinalizer w) tt; Ev (Go (NewWatcher_func1 w)) tt]).
    split.
    - apply NewWatcher_succeeds. apply connect_no_password; eassumption.
    - repeat split. left. exists c. eexists. repeat split. }
  pose (W1 := extend [Ev (Dial (Protocol o) addr) (inl c)] W).
  destruct (answer W1 (Do c "AUTH" [Password o])) as [r [err|]] eqn:Ha.
  - exists (None, Some err), (unconnected o). eexists. split.
    + apply NewWatcher_fails. apply connect_auth_fails; eassumption.
    + repeat split. right. exists err. split; reflexivity.
  - exists (Some w, None), (set_connection (Some c) (unconnected o)).
    exists ([Ev (Dial (Protocol o) addr) (inl c);
             Ev (Do c "AUTH" [Password o]) (r, None)] ++
            [Ev (SetFinalizer w) tt; Ev (Go (NewWatcher_func1 w)) tt]).
    split.
    + apply NewWatcher_succeeds. apply connect_auth_passes; eassumption.
    + repeat split. left. exists c. eexists. repeat split.
Qed.


(** * Properties of the watcher *)

(** The goroutine's first call while receiving is [psc.Receive]. *)
Lemma receiving_calls_Receive w c W :
  run 1 (goroutine_in w (receiving w {| psc_Conn := Some c |})) W
  = (Running, called (Receive c) W).
Proof.
  rewrite goroutine_in_receiving, receive_loop_unfold.
  unfold receive_body, psc_Receive. cbn [on_conn psc_Conn]. exec.
  apply run_zero.
Qed.

(** The goroutine's first call in a turn of its [for] is
    [psc.Subscribe] on the configured channel. *)
Lemma goroutine_calls_Subscribe w v c W :
  nth_error (heap W) w = Some v -> connection v = Some c ->
  run 2 (goroutine (NewWatcher_func1 w)) W
  = (Running, called (Subscribe c [Channel (options v)]) W).
Proof.
  intros Hw Hc. rewrite goroutine_unfold. unfold resubscribe, subscribe.
  exec. load_with Hw. rewrite Hc. unfold psc_Subscribe.
  cbn [on_conn psc_Conn]. exec. apply run_zero.
Qed.

(** C1. When the background loop receives a data message, it calls the
    registered callback once, with the payload converted to a string, or
    calls nothing when no callback is registered; either way it is back at
    the head of the receive loop, whose next call is [psc.Receive]. *)
Theorem message_invokes_callback_once W w v c m :
  nth_error (heap W) w = Some v ->
  connection v = Some c ->
  answer W (Receive c) = RecvMessage m ->
  let receiving_state :=
    goroutine_in w (receiving w {| psc_Conn := connection v |}) in
  evolves receiving_state W receiving_state
    (extend (Ev (Receive c) (RecvMessage m) ::
             match callback v with
             | Some f => [Ev (Invoke f (string_of_bytes (Data m))) tt]
             | None => []
             end) W) /\
  forall W', run 1 receiving_state W' = (Running, called (Receive c) W').
Proof.
  intros Hw Hc Hm. rewrite Hc. cbv zeta. split.
  - apply receiving_again.
    destruct (callback v) as [f|] eqn:Hcb.
    + eapply receive_message_callback; eassumption.
    + eapply receive_message_nil; eassumption.
  - apply receiving_calls_Receive.
Qed.

Lemma message_invokes_callback_once_witness :
  let W := sample_world
             (steady (inl (conn 1)) (ReplyNil, None)
                (RecvMessage sample_message))
             (Some (func 7)) in
  let receiving_state :=
    goroutine_in 0 (receiving 0 {| psc_Conn := Some (conn 1) |}) in
  evolves receiving_state W receiving_state
    (extend [Ev (Receive (conn 1)) (RecvMessage sample_message);
             Ev (Invoke (func 7) "casbin rules updated") tt] W) /\
  forall W', run 1 receiving_state W'
             = (Running, called (Receive (conn 1)) W').
Proof.
  exact (message_invokes_callback_once
           (sample_world
              (steady (inl (conn 1)) (ReplyNil, None)
                 (RecvMessage sample_message))
              (Some (func 7)))
           0 (sample_watcher (Some (func 7))) (conn 1) sample_message
           eq_refl eq_refl eq_refl).
Defined.

(** C2. [Update] issues one [PUBLISH] of the fixed marker on the
    configured channel and nothing else; it returns the error of that
    command, so an error exactly when the command failed. *)
Theorem Update_publishes_once W w v c :
  nth_error (heap W) w = Some v ->
  connection v = Some c ->
  let publish :=
    Do c "PUBLISH" [Channel (options v); "casbin rules updated"] in
  let a := answer W publish in
  returns (Update w) W (snd a) (extend [Ev publish a] W) /\
  forall r W',
    returns (Update w) W r W' ->
    W' = extend [Ev publish a] W /\ (r <> None <-> snd a <> None).
Proof.
  intros Hw Hc publish a.
  assert (H : returns (Update w) W (snd a) (extend [Ev publish a] W)).
  { exists 2. unfold Update. load_with Hw. rewrite Hc. cbn [on_conn].
    exec. fold publish. fold a. now destruct (snd a). }
  split; [exact H|]. intros r W' H'.
  destruct (returns_unique _ _ _ _ _ _ H H') as [<- <-]. now split.
Qed.

Lemma Update_publishes_once_witness :
  let W := sample_world
             (steady (inl (conn 1)) (ReplyInt 2, None)
                (RecvPong {| pong_Data := "" |}))
             None in
  let publish := Do (conn 1) "PUBLISH" ["/casbin"; "casbin rules updated"] in
  returns (Update 0) W None (extend [Ev publish (ReplyInt 2, None)] W) /\
  forall r W',
    returns (Update 0) W r W' ->
    W' = extend [Ev publish (ReplyInt 2, None)] W /\
    (r <> None <-> @None error <> None).
Proof.
  exact (Update_publishes_once
           (sample_world
              (steady (inl (conn 1)) (ReplyInt 2, None)
                 (RecvPong {| pong_Data := "" |}))
              None)
           0 (sample_watcher None) (conn 1) eq_refl eq_refl).
Defined.


Example Update_reports_failure :
  run 2 (Update 0)
    (sample_world
       (steady (inl (conn 1)) (ReplyNil, Some sample_error)
          (RecvPong {| pong_Data := "" |}))
       None)
  = (Done (Some sample_error),
     {| heap := [sample_watcher None];
        oracle := steady (inl (conn 1)) (ReplyNil, Some sample_error)
                    (RecvPong {| pong_Data := "" |});
        history :=
          [Ev (Do (conn 1) "PUBLISH" ["/casbin"; "casbin rules updated"])
              (ReplyNil, Some sample_error)] |}).
Proof. reflexivity. Qed.

(** [Update] on a struct without a connection panics. *)
Example Update_nil_connection :
  fst (run 2 (Update 0)
         {| heap := [Watcher_zero];
            oracle := steady (inr sample_error) (ReplyNil, None)
                        (RecvError sample_error);
            history := [] |})
  = Panicked nil_dereference.
Proof. reflexivity. Qed.

(** C3. With a password set and no connection supplied, a rejected
    [AUTH] makes the constructor close the connection it has just dialed
    and return the error of [AUTH], with no watcher; of the calls it made,
    none leaves a connection open. *)
Theorem auth_failure_closes_connection W addr setters c r err :
  let o := resolve setters in
  let dial := Dial (Protocol o) addr in
  let auth := Do c "AUTH" [Password o] in
  Connection o = None ->
  Password o <> "" ->
  answer W dial = inl c ->
  answer (extend [Ev dial (inl c)] W) auth = (r, Some err) ->
  exists a,
    let l := [Ev dial (inl c); Ev auth (r, Some err); Ev (Close c) a] in
    returns (NewWatcher addr setters) W (None, Some err)
      (alloc (unconnected o) (extend l W)) /\
    left_open l = [] /\
    count is_Go l = 0.
Proof.
  intros o dial auth Hc Hp Hd Ha. eexists. split; [|split].
  - apply NewWatcher_fails. apply connect_auth_fails; eassumption.
  - unfold left_open. cbn.
    destruct (Conn_eq_dec c c) as [_|Hne]; [reflexivity|congruence].
  - reflexivity.
Qed.

Lemma auth_failure_closes_connection_witness :
  let o := resolve [Setters.Password "secret"] in
  let W := {| heap := [];
              oracle := steady (inl (conn 1)) (ReplyNil, Some sample_error)
                          (RecvError sample_error);
              history := [] |} in
  exists a,
    let l := [Ev (Dial "tcp" "127.0.0.1:6379") (inl (conn 1));
              Ev (Do (conn 1) "AUTH" ["secret"]) (ReplyNil, Some sample_error);
              Ev (Close (conn 1)) a] in
    returns (NewWatcher "127.0.0.1:6379" [Setters.Password "secret"]) W
      (None, Some sample_error) (alloc (unconnected o) (extend l W)) /\
    left_open l = [] /\
    count is_Go l = 0.
Proof.
  apply (auth_failure_closes_connection
           {| heap := [];
              oracle := steady (inl (conn 1)) (ReplyNil, Some sample_error)
                          (RecvError sample_error);
              history := [] |}
           "127.0.0.1:6379" [Setters.Password "secret"] (conn 1) ReplyNil
           sample_error);
    [reflexivity | discriminate | reflexivity | reflexivity].
Defined.

(** C4. With no connection supplied, a failed dial makes the constructor
    return the error of the dial and no watcher; the dial is the only call
    it makes, so no goroutine is started. *)
Theorem dial_failure_starts_nothing W addr setters err :
  let o := resolve setters in
  let dial := Dial (Protocol o) addr in
  Connection o = None ->
  answer W dial = inr err ->
  returns (NewWatcher addr setters) W (None, Some err)
    (alloc (unconnected o) (extend [Ev dial (inr err)] W)) /\
  forall r W',
    returns (NewWatcher addr setters) W r W' ->
    r = (None, Some err) /\
    exists l, history W' = history W ++ l /\ count is_Go l = 0.
Proof.
  intros o dial Hc Hd.
  assert (H : returns (NewWatcher addr setters) W (None, Some err)
                (alloc (unconnected o) (extend [Ev dial (inr err)] W))).
  { apply NewWatcher_fails. apply connect_dial_fails; assumption. }
  split; [exact H|]. intros r W' H'.
  destruct (returns_unique _ _ _ _ _ _ H H') as [<- <-].
  split; [reflexivity|]. now exists [Ev dial (inr err)].
Qed.

Lemma dial_failure_starts_nothing_witness :
  let W := {| heap := [];
              oracle := steady (inr sample_error) (ReplyNil, None)
                          (RecvError sample_error);
              history := [] |} in
  let dial := Dial "tcp" "nowhere:1" in
  returns (NewWatcher "nowhere:1" []) W (None, Some sample_error)
    (alloc (unconnected default_options)
       (extend [Ev dial (inr sample_error)] W)) /\
  forall r W',
    returns (NewWatcher "nowhere:1" []) W r W' ->
    r = (None, Some sample_error) /\
    exists l, history W' = history W ++ l /\ count is_Go l = 0.
Proof.
  apply (dial_failure_starts_nothing
           {| heap := [];
              oracle := steady (inr sample_error) (ReplyNil, None)
                          (RecvError sample_error);
              history := [] |}
           "nowhere:1" [] sample_error); reflexivity.
Defined.

(** C5. A connection supplied in the options is taken over as it is: the
    constructor succeeds whatever the address and the password are, the
    watcher holds that connection, and the only calls made register the
    finalizer and start the goroutine, so there is no [Dial] and no
    [AUTH]. *)
Theorem supplied_connection_adopted W setters c :
  let o := resolve setters in
  let w := length (heap W) in
  Connection o = Some c ->
  let l := [Ev (SetFinalizer w) tt; Ev (Go (NewWatcher_func1 w)) tt] in
  let W' := alloc {| options := o; connection := Some c; callback := None |}
              (extend l W) in
  (forall addr, returns (NewWatcher addr setters) W (Some w, None) W') /\
  count is_Dial l = 0 /\ count is_Do l = 0.
Proof.
  intros o w Hc l W'. split; [|split; reflexivity].
  intros addr.
  apply (NewWatcher_succeeds addr setters W
           (set_connection (Some c) (unconnected o)) []).
  rewrite extend_nil. now apply connect_adopts.
Qed.

Lemma supplied_connection_adopted_witness :
  let setters := [Setters.WithRedisConnection (conn 5);
                  Setters.Password "secret"] in
  let W := {| heap := [];
              oracle := steady (inr sample_error) (ReplyNil, Some sample_error)
                          (RecvError sample_error);
              history := [] |} in
  let l := [Ev (SetFinalizer 0) tt; Ev (Go (NewWatcher_func1 0)) tt] in
  let W' := alloc {| options := resolve setters;
                     connection := Some (conn 5); callback := None |}
              (extend l W) in
  (forall addr, returns (NewWatcher addr setters) W (Some 0, None) W') /\
  count is_Dial l = 0 /\ count is_Do l = 0.
Proof.
  exact (supplied_connection_adopted
           {| heap := [];
              oracle := steady (inr sample_error) (ReplyNil, Some sample_error)
                          (RecvError sample_error);
              history := [] |}
           [Setters.WithRedisConnection (conn 5); Setters.Password "secret"]
           (conn 5) eq_refl).
Defined.


(** ** Resolving the options *)

Lemma resolve_snoc setters setter :
  resolve (setters ++ [setter]) = setter (resolve setters).
Proof. unfold resolve. now rewrite fold_left_app. Qed.

Lemma apply_all_app l1 l2 o :
  apply_all (l1 ++ l2) o = apply_all l2 (apply_all l1 o).
Proof. unfold apply_all. now rewrite List.map_app, fold_left_app. Qed.

(** Setters of other fields leave the channel alone. *)
Lemma Channel_kept l : forall o,
  existsb is_SetChannel l = false -> Channel (apply_all l o) = Channel o.
Proof.
  induction l as [|x l IH]; intros o H; [reflexivity|].
  cbn in H. apply orb_false_elim in H as [Hx Hl].
  change (apply_all (x :: l) o) with (apply_all l (setter_of x o)).
  rewrite (IH _ Hl). now destruct x.
Qed.

Lemma Protocol_kept l : forall o,
  existsb is_SetProtocol l = false -> Protocol (apply_all l o) = Protocol o.
Proof.
  induction l as [|x l IH]; intros o H; [reflexivity|].
  cbn in H. apply orb_false_elim in H as [Hx Hl].
  change (apply_all (x :: l) o) with (apply_all l (setter_of x o)).
  rewrite (IH _ Hl). now destruct x.
Qed.

(** C7. The constructor always returns, and the watcher it built carries
    the defaults with the setters applied to them in the order given, each
    to the result of the one before.  The defaults are the channel
    [/casbin] and the protocol [tcp]; the last setter of a field decides
    the field, and a field no setter assigns keeps its default. *)
Theorem setters_applied_in_order :
  (forall addr setters W,
     exists r v l,
       returns (NewWatcher addr setters) W r (alloc v (extend l W)) /\
       options v = resolve setters) /\
  resolve [] = default_options /\
  (forall setters setter,
     resolve (setters ++ [setter]) = setter (resolve setters)) /\
  Channel default_options = "/casbin" /\
  Protocol default_options = "tcp" /\
  (forall l1 l2 s,
     existsb is_SetChannel l2 = false ->
     Channel (resolve (List.map setter_of (l1 ++ SetChannel s :: l2))) = s) /\
  (forall l1 l2 s,
     existsb is_SetProtocol l2 = false ->
     Protocol (resolve (List.map setter_of (l1 ++ SetProtocol s :: l2))) = s) /\
  (forall l,
     existsb is_SetChannel l = false ->
     Channel (resolve (List.map setter_of l)) = "/casbin") /\
  (forall l,
     existsb is_SetProtocol l = false ->
     Protocol (resolve (List.map setter_of l)) = "tcp").
Proof.
  split.
  { intros addr setters W.
    destruct (NewWatcher_cases addr setters W) as [r [v [l [H [Ho _]]]]].
    now exists r, v, l. }
  split; [reflexivity|]. split; [apply resolve_snoc|].
  split; [reflexivity|]. split; [reflexivity|].
  repeat split.
  - intros l1 l2 s H.
    change (Channel (apply_all (l1 ++ [SetChannel s] ++ l2) default_options) = s).
    now rewrite !apply_all_app, Channel_kept.
  - intros l1 l2 s H.
    change (Protocol (apply_all (l1 ++ [SetProtocol s] ++ l2) default_options) = s).
    now rewrite !apply_all_app, Protocol_kept.
  - intros l H. now apply (Channel_kept l default_options).
  - intros l H. now apply (Protocol_kept l default_options).
Qed.

Lemma setters_applied_in_order_witness :
  Channel (resolve [Setters.Channel "/a"; Setters.Password "secret";
                    Setters.Channel "/b"]) = "/b" /\
  Protocol (resolve [Setters.Channel "/a"; Setters.Password "secret";
                     Setters.Channel "/b"]) = "tcp".
Proof.
  destruct setters_applied_in_order
    as [_ [_ [_ [_ [_ [Hlast [_ [_ Hdefault]]]]]]]].
  split.
  - exact (Hlast [SetChannel "/a"; SetPassword "secret"] [] "/b" eq_refl).
  - exact (Hdefault [SetChannel "/a"; SetPassword "secret"; SetChannel "/b"]
             eq_refl).
Defined.

(** The constructor run on two channel setters and a supplied
    connection. *)
Example NewWatcher_two_channels :
  let W := {| heap := [];
              oracle := steady (inr sample_error) (ReplyNil, None)
                          (RecvError sample_error);
              history := [] |} in
  let r := run 20 (NewWatcher "" [Setters.Channel "/a";
                                  Setters.WithRedisConnection (conn 5);
                                  Setters.Channel "/b"]) W in
  fst r = Done (Some 0, None) /\
  heap (snd r)
  = [{| options := {| Channel := "/b"; Protocol := "tcp"; Password := "";
                      Connection := Some (conn 5) |};
        connection := Some (conn 5); callback := None |}] /\
  history (snd r)
  = [Ev (SetFinalizer 0) tt; Ev (Go (NewWatcher_func1 0)) tt].
Proof. repeat split. Qed.


(** ** What the goroutine never calls *)

Lemma goroutine_entry_not_Close v c l :
  Forall (goroutine_entry v c) l -> count is_Close l = 0.
Proof.
  induction 1 as [|x l Hx _ IH]; [reflexivity|].
  unfold count in *. cbn.
  destruct x as [T e a]. destruct e; cbn in *; try contradiction; exact IH.
Qed.

Lemma goroutine_entry_not_Invoke v c l :
  callback v = None ->
  Forall (goroutine_entry v c) l -> count is_Invoke l = 0.
Proof.
  intros Hcb. induction 1 as [|x l Hx _ IH]; [reflexivity|].
  unfold count in *. cbn.
  destruct x as [T e a]. destruct e; cbn in *; try contradiction;
    try exact IH.
  congruence.
Qed.

(** C6. When [psc.Receive] yields an error, the receive loop is left: the
    deferred [psc.Unsubscribe] is called and whatever it answers is
    dropped, the error is printed, and the goroutine is at the head of its
    [for] again, with no other call made.  From there its next call is
    [psc.Subscribe].  The goroutine is still running after any number of
    steps, and the calls it makes exceed any bound. *)
Theorem receive_error_resubscribes W w v c err :
  nth_error (heap W) w = Some v ->
  connection v = Some c ->
  answer W (Receive c) = RecvError err ->
  let head := goroutine (NewWatcher_func1 w) in
  let receiving_state :=
    goroutine_in w (receiving w {| psc_Conn := connection v |}) in
  (exists a,
     evolves receiving_state W head
       (extend [Ev (Receive c) (RecvError err);
                Ev (Unsubscribe c []) a;
                Ev (Printf failure_format [err]) tt] W)) /\
  (forall W',
     nth_error (heap W') w = Some v ->
     run 2 head W'
     = (Running, called (Subscribe c [Channel (options v)]) W')) /\
  (forall fuel, fst (run fuel head W) = Running) /\
  (forall N, exists fuel l,
     run fuel head W = (Running, extend l W) /\ N <= length l).
Proof.
  intros Hw Hc Hm head receiving_state. subst receiving_state.
  rewrite Hc. split; [|split; [|split]].
  - pose (W1 := extend [Ev (Receive c) (RecvError err)] W).
    exists (answer W1 (Unsubscribe c [])).
    apply receiving_evolves. eapply evolves_trans.
    + eapply receive_error; eassumption.
    + change [Ev (Receive c) (RecvError err);
              Ev (Unsubscribe c []) (answer W1 (Unsubscribe c []));
              Ev (Printf failure_format [err]) tt]
        with ([Ev (Receive c) (RecvError err)] ++
              [Ev (Unsubscribe c []) (answer W1 (Unsubscribe c []));
               Ev (Printf failure_format [err]) tt]).
      rewrite <- extend_extend.
      apply (goroutine_leaves W1 w c (Some err)).
  - intros W' Hw'. now apply goroutine_calls_Subscribe.
  - intros fuel.
    now apply (goroutine_forever w v c Hc W _ Hw (at_head w c)).
  - apply (goroutine_forever w v c Hc W _ Hw (at_head w c)).
Qed.

Lemma receive_error_resubscribes_witness :
  let W := sample_world
             (steady (inl (conn 1)) (ReplyNil, None) (RecvError sample_error))
             None in
  let head := goroutine (NewWatcher_func1 0) in
  let receiving_state :=
    goroutine_in 0 (receiving 0 {| psc_Conn := Some (conn 1) |}) in
  (exists a,
     evolves receiving_state W head
       (extend [Ev (Receive (conn 1)) (RecvError sample_error);
                Ev (Unsubscribe (conn 1) []) a;
                Ev (Printf failure_format [sample_error]) tt] W)) /\
  (forall W',
     nth_error (heap W') 0 = Some (sample_watcher None) ->
     run 2 head W' = (Running, called (Subscribe (conn 1) ["/casbin"]) W')) /\
  (forall fuel, fst (run fuel head W) = Running) /\
  (forall N, exists fuel l,
     run fuel head W = (Running, extend l W) /\ N <= length l).
Proof.
  exact (receive_error_resubscribes
           (sample_world
              (steady (inl (conn 1)) (ReplyNil, None)
                 (RecvError sample_error))
              None)
           0 (sample_watcher None) (conn 1) sample_error
           eq_refl eq_refl eq_refl).
Defined.

(** The goroutine against a broker whose every receive fails: it
    subscribes, fails, unsubscribes, prints, and starts over. *)
Example goroutine_retries :
  history
    (snd (run 12 (goroutine (NewWatcher_func1 0))
            (sample_world
               (steady (inl (conn 1)) (ReplyNil, None)
                  (RecvError sample_error))
               None)))
  = [Ev (Subscribe (conn 1) ["/casbin"]) None;
     Ev (Receive (conn 1)) (RecvError sample_error);
     Ev (Unsubscribe (conn 1) []) None;
     Ev (Printf failure_format [sample_error]) tt;
     Ev (Subscribe (conn 1) ["/casbin"]) None;
     Ev (Receive (conn 1)) (RecvError sample_error);
     Ev (Unsubscribe (conn 1) []) None;
     Ev (Printf failure_format [sample_error]) tt].
Proof. reflexivity. Qed.

(** C8. When [psc.Receive] yields a subscription count of zero,
    [subscribe] is left with a nil error: the deferred [psc.Unsubscribe] is
    called, nothing is printed, and the goroutine is at the head of its
    [for] again. *)
Theorem count_zero_returns_cleanly W w v c s :
  nth_error (heap W) w = Some v ->
  connection v = Some c ->
  answer W (Receive c) = RecvSubscription s ->
  Count s = 0%Z ->
  let psc := {| psc_Conn := connection v |} in
  let l := [Ev (Receive c) (RecvSubscription s);
            Ev (Unsubscribe c [])
              (answer (extend [Ev (Receive c) (RecvSubscription s)] W)
                 (Unsubscribe c []))] in
  evolves (goroutine_in w (receiving w psc)) W
    (goroutine (NewWatcher_func1 w)) (extend l W) /\
  forall R (K : option error -> itree goE R),
    evolves (x <- receiving w psc;; K x) W (K None) (extend l W).
Proof.
  intros Hw Hc Hm Hs psc l. subst psc l. rewrite Hc.
  pose (W1 := extend [Ev (Receive c) (RecvSubscription s)] W).
  fold W1. split.
  - apply receiving_evolves. eapply evolves_trans.
    + eapply receive_count_zero; eassumption.
    + change [Ev (Receive c) (RecvSubscription s);
              Ev (Unsubscribe c []) (answer W1 (Unsubscribe c []))]
        with ([Ev (Receive c) (RecvSubscription s)] ++
              [Ev (Unsubscribe c []) (answer W1 (Unsubscribe c []))]).
      rewrite <- extend_extend.
      apply (goroutine_leaves W1 w c None).
  - intros R K. unfold receiving, defer.
    eapply evolves_eq_itree;
      [symmetry; apply bind_bind|reflexivity|].
    eapply evolves_trans.
    + eapply (receive_count_zero W w c
                (fun r => x <- (psc_Unsubscribe {| psc_Conn := Some c |} [];;
                                Ret r);; K x));
        eassumption.
    + exists 1. intros n. unfold psc_Unsubscribe. cbn [on_conn psc_Conn].
      cbn [Nat.add]. exec. unfold called, W1.
      now rewrite extend_extend.
Qed.

Lemma count_zero_returns_cleanly_witness :
  let s := {| Kind := "unsubscribe"; sub_Channel := "/casbin"; Count := 0 |} in
  let W := sample_world
             (steady (inl (conn 1)) (ReplyNil, None) (RecvSubscription s))
             None in
  let psc := {| psc_Conn := Some (conn 1) |} in
  let l := [Ev (Receive (conn 1)) (RecvSubscription s);
            Ev (Unsubscribe (conn 1) []) None] in
  evolves (goroutine_in 0 (receiving 0 psc)) W
    (goroutine (NewWatcher_func1 0)) (extend l W) /\
  forall R (K : option error -> itree goE R),
    evolves (x <- receiving 0 psc;; K x) W (K None) (extend l W).
Proof.
  exact (count_zero_returns_cleanly
           (sample_world
              (steady (inl (conn 1)) (ReplyNil, None)
                 (RecvSubscription
                    {| Kind := "unsubscribe"; sub_Channel := "/casbin";
                       Count := 0 |}))
              None)
           0 (sample_watcher None) (conn 1)
           {| Kind := "unsubscribe"; sub_Channel := "/casbin"; Count := 0 |}
           eq_refl eq_refl eq_refl eq_refl).
Defined.


(** ** The other methods *)

Lemma count_app p l1 l2 : count p (l1 ++ l2) = count p l1 + count p l2.
Proof. unfold count. now rewrite filter_app, length_app. Qed.

(** [finalizer] closes the connection of the watcher and calls nothing
    else. *)
Lemma finalizer_closes W w v c :
  nth_error (heap W) w = Some v -> connection v = Some c ->
  returns (finalizer w) W tt (extend [Ev (Close c) (answer W (Close c))] W).
Proof.
  intros Hw Hc. exists 2. unfold finalizer. load_with Hw. rewrite Hc.
  cbn [on_conn]. now exec.
Qed.

(** [Update] publishes the marker and returns the error of the
    command. *)
Lemma Update_returns W w v c :
  nth_error (heap W) w = Some v -> connection v = Some c ->
  let publish :=
    Do c "PUBLISH" [Channel (options v); "casbin rules updated"] in
  returns (Update w) W (snd (answer W publish))
    (extend [Ev publish (answer W publish)] W).
Proof.
  intros Hw Hc publish. exists 2. unfold Update. load_with Hw. rewrite Hc.
  cbn [on_conn]. exec. fold publish. now destruct (snd (answer W publish)).
Qed.

(** [SetUpdateCallback] stores the callback, calls nothing and returns
    nil. *)
Lemma SetUpdateCallback_stores W w v cb :
  nth_error (heap W) w = Some v ->
  returns (SetUpdateCallback w cb) W None (write w (set_callback cb v) W).
Proof.
  intros Hw. exists 2. unfold SetUpdateCallback. load_with Hw.
  rewrite (run_store _ _ _ v) by exact Hw. now exec.
Qed.

(** What a successful construction leaves behind: the struct of the
    watcher, with a connection and no callback, one registration of the
    finalizer, and no [Close]. *)
Lemma NewWatcher_success addr setters W w W' :
  returns (NewWatcher addr setters) W (Some w, None) W' ->
  exists v c l,
    nth_error (heap W') w = Some v /\
    connection v = Some c /\ callback v = None /\
    history W' = history W ++ l /\
    count (is_SetFinalizer w) l = 1 /\
    count is_Close l = 0.
Proof.
  intros H.
  destruct (NewWatcher_cases addr setters W)
    as [r [v [l [Hr [_ [Hcb Hcases]]]]]].
  destruct (returns_unique _ _ _ _ _ _ H Hr) as [Heq HW]. subst r W'.
  destruct Hcases as [[c [pre [Heq [Hc [Hl [Hcl Hfin]]]]]]|[err [Heq _]]];
    [|discriminate].
  injection Heq as Heq. subst w l.
  exists v, c. eexists. split; [now apply load_alloc|].
  split; [exact Hc|]. split; [exact Hcb|]. split; [reflexivity|].
  rewrite !count_app, Hcl, Hfin. unfold count. cbn.
  now rewrite Nat.eqb_refl.
Qed.

(** C9. After a successful construction the finalizer is registered for
    the watcher exactly once and the connection has not been closed.
    [finalizer] closes the connection of the watcher with one [Close] and
    makes no other call, and nothing else closes it: [Update] only
    publishes, [SetUpdateCallback] calls nothing and leaves the connection
    in place, and the goroutine never calls [Close]. *)
Theorem connection_closed_by_finalizer_only W addr setters w W' :
  returns (NewWatcher addr setters) W (Some w, None) W' ->
  exists v c l,
    nth_error (heap W') w = Some v /\
    connection v = Some c /\
    history W' = history W ++ l /\
    count (is_SetFinalizer w) l = 1 /\
    count is_Close l = 0 /\
    forall X v',
      nth_error (heap X) w = Some v' ->
      connection v' = Some c ->
      returns (finalizer w) X tt
        (extend [Ev (Close c) (answer X (Close c))] X) /\
      (exists r a,
         returns (Update w) X r
           (extend [Ev (Do c "PUBLISH"
                          [Channel (options v'); "casbin rules updated"]) a]
              X)) /\
      (forall cb,
         returns (SetUpdateCallback w cb) X None
           (write w (set_callback cb v') X) /\
         connection (set_callback cb v') = Some c) /\
      (forall fuel,
         exists l',
           history (snd (run fuel (goroutine (NewWatcher_func1 w)) X))
           = history X ++ l' /\
           count is_Close l' = 0).
Proof.
  intros H.
  destruct (NewWatcher_success addr setters W w W' H)
    as [v [c [l [Hw [Hc [_ [Hh [Hfin Hcl]]]]]]]].
  exists v, c, l. repeat (split; [assumption|]).
  intros X v' Hw' Hc'. split; [|split; [|split]].
  - now apply finalizer_closes with (v := v').
  - eexists. eexists. now apply Update_returns.
  - intros cb. split; [now apply SetUpdateCallback_stores|exact Hc'].
  - intros fuel.
    destruct (goroutine_forever w v' c Hc' X _ Hw' (at_head w c))
      as [Hall _].
    destruct (Hall fuel) as [_ [l' [Hl' Hent]]].
    exists l'. split; [exact Hl'|].
    now apply goroutine_entry_not_Close with (v := v') (c := c).
Qed.

Lemma connection_closed_by_finalizer_only_witness :
  let W := {| heap := [];
              oracle := steady (inl (conn 1)) (ReplyNil, None)
                          (RecvError sample_error);
              history := [] |} in
  let W' := snd (run 20 (NewWatcher "127.0.0.1:6379" []) W) in
  exists v c l,
    nth_error (heap W') 0 = Some v /\
    connection v = Some c /\
    history W' = history W ++ l /\
    count (is_SetFinalizer 0) l = 1 /\
    count is_Close l = 0 /\
    forall X v',
      nth_error (heap X) 0 = Some v' ->
      connection v' = Some c ->
      returns (finalizer 0) X tt
        (extend [Ev (Close c) (answer X (Close c))] X) /\
      (exists r a,
         returns (Update 0) X r
           (extend [Ev (Do c "PUBLISH"
                          [Channel (options v'); "casbin rules updated"]) a]
              X)) /\
      (forall cb,
         returns (SetUpdateCallback 0 cb) X None
           (write 0 (set_callback cb v') X) /\
         connection (set_callback cb v') = Some c) /\
      (forall fuel,
         exists l',
           history (snd (run fuel (goroutine (NewWatcher_func1 0)) X))
           = history X ++ l' /\
           count is_Close l' = 0).
Proof.
  apply (connection_closed_by_finalizer_only
           {| heap := [];
              oracle := steady (inl (conn 1)) (ReplyNil, None)
                          (RecvError sample_error);
              history := [] |}
           "127.0.0.1:6379" []).
  exists 20. reflexivity.
Defined.

(** The finalizer run on a watcher that [NewWatcher] built. *)
Example finalizer_after_NewWatcher :
  let W := {| heap := [];
              oracle := steady (inl (conn 1)) (ReplyNil, None)
                          (RecvError sample_error);
              history := [] |} in
  let W' := snd (run 20 (NewWatcher "127.0.0.1:6379" []) W) in
  history (snd (run 5 (finalizer 0) W'))
  = [Ev (Dial "tcp" "127.0.0.1:6379") (inl (conn 1));
     Ev (SetFinalizer 0) tt;
     Ev (Go (NewWatcher_func1 0)) tt;
     Ev (Close (conn 1)) None].
Proof. reflexivity. Qed.

(** C10. While the callback field of a watcher is nil, its goroutine,
    from the head of its [for] or from the receive loop, is still running
    after any number of steps, so it never panics, and it has called no
    callback; a data message makes it call nothing and go back to the
    receive loop.  The field is nil after construction, and
    [SetUpdateCallback], the only method that writes it, returns nil. *)
Theorem nil_callback_is_safe W w v c :
  nth_error (heap W) w = Some v ->
  connection v = Some c ->
  callback v = None ->
  let head := goroutine (NewWatcher_func1 w) in
  let receiving_state :=
    goroutine_in w (receiving w {| psc_Conn := connection v |}) in
  let safe t :=
    forall fuel,
      fst (run fuel t W) = Running /\
      exists l, history (snd (run fuel t W)) = history W ++ l /\
                count is_Invoke l = 0 in
  safe head /\
  safe receiving_state /\
  (forall m,
     answer W (Receive c) = RecvMessage m ->
     evolves receiving_state W receiving_state
       (extend [Ev (Receive c) (RecvMessage m)] W)) /\
  (forall X v' cb,
     nth_error (heap X) w = Some v' ->
     returns (SetUpdateCallback w cb) X None
       (write w (set_callback cb v') X)) /\
  (forall X addr setters w' X',
     returns (NewWatcher addr setters) X (Some w', None) X' ->
     exists v', nth_error (heap X') w' = Some v' /\ callback v' = None).
Proof.
  intros Hw Hc Hcb head receiving_state safe.
  assert (Hsafe : forall t, at_loop w c t -> safe t).
  { intros t Ht fuel.
    destruct (goroutine_forever w v c Hc W t Hw Ht) as [Hall _].
    destruct (Hall fuel) as [Hrun [l [Hl Hent]]].
    split; [exact Hrun|]. exists l. split; [exact Hl|].
    now apply goroutine_entry_not_Invoke with (v := v) (c := c). }
  split; [apply Hsafe; constructor|].
  split; [subst receiving_state; rewrite Hc; apply Hsafe; constructor|].
  split; [|split].
  - intros m Hm. subst receiving_state. rewrite Hc.
    apply receiving_again. eapply receive_message_nil; eassumption.
  - intros X v' cb Hw'. now apply SetUpdateCallback_stores.
  - intros X addr setters w' X' H.
    destruct (NewWatcher_success addr setters X w' X' H)
      as [v' [c' [l [Hw' [_ [Hcb' _]]]]]].
    now exists v'.
Qed.

Lemma nil_callback_is_safe_witness :
  let W := sample_world
             (steady (inl (conn 1)) (ReplyNil, None)
                (RecvMessage sample_message))
             None in
  let head := goroutine (NewWatcher_func1 0) in
  let receiving_state :=
    goroutine_in 0 (receiving 0 {| psc_Conn := Some (conn 1) |}) in
  let safe t :=
    forall fuel,
      fst (run fuel t W) = Running /\
      exists l, history (snd (run fuel t W)) = history W ++ l /\
                count is_Invoke l = 0 in
  safe head /\
  safe receiving_state /\
  (forall m,
     answer W (Receive (conn 1)) = RecvMessage m ->
     evolves receiving_state W receiving_state
       (extend [Ev (Receive (conn 1)) (RecvMessage m)] W)) /\
  (forall X v' cb,
     nth_error (heap X) 0 = Some v' ->
     returns (SetUpdateCallback 0 cb) X None
       (write 0 (set_callback cb v') X)) /\
  (forall X addr setters w' X',
     returns (NewWatcher addr setters) X (Some w', None) X' ->
     exists v', nth_error (heap X') w' = Some v' /\ callback v' = None).
Proof.
  exact (nil_callback_is_safe
           (sample_world
              (steady (inl (conn 1)) (ReplyNil, None)
                 (RecvMessage sample_message))
              None)
           0 (sample_watcher None) (conn 1) eq_refl eq_refl eq_refl).
Defined.

(** The goroutine of a watcher without a callback against a broker that
    keeps sending messages: it only receives. *)
Example goroutine_drops_messages :
  history
    (snd (run 12 (goroutine (NewWatcher_func1 0))
            (sample_world
               (steady (inl (conn 1)) (ReplyNil, None)
                  (RecvMessage sample_message))
               None)))
  = [Ev (Subscribe (conn 1) ["/casbin"]) None;
     Ev (Receive (conn 1)) (RecvMessage sample_message);
     Ev (Receive (conn 1)) (RecvMessage sample_message);
     Ev (Receive (conn 1)) (RecvMessage sample_message);
     Ev (Receive (conn 1)) (RecvMessage sample_message)].
Proof. reflexivity. Qed.

(** The same with a callback registered: each message is handed to it. *)
Example goroutine_invokes_callback :
  history
    (snd (run 10 (goroutine (NewWatcher_func1 0))
            (sample_world
               (steady (inl (conn 1)) (ReplyNil, None)
                  (RecvMessage sample_message))
               (Some (func 7)))))
  = [Ev (Subscribe (conn 1) ["/casbin"]) None;
     Ev (Receive (conn 1)) (RecvMessage sample_message);
     Ev (Invoke (func 7) "casbin rules updated") tt;
     Ev (Receive (conn 1)) (RecvMessage sample_message);
     Ev (Invoke (func 7) "casbin rules updated") tt].
Proof. reflexivity. Qed.


(** * Further properties *)

(** ** Every way the constructor can go *)

(** [NewWatcher] returns, after one of the five kinds of construction. *)
Lemma NewWatcher_outcomes addr setters W :
  exists l oc oerr,
    construction (resolve setters) addr (length (heap W)) l oc oerr /\
    returns (NewWatcher addr setters) W
      (match oerr with
       | None => Some (length (heap W))
       | Some _ => None
       end, oerr)
      (alloc {| options := resolve setters; connection := oc;
                callback := None |} (extend l W)).
Proof.
  set (o := resolve setters). set (w := length (heap W)).
  destruct (Connection o) as [c|] eqn:Hc.
  { exists [Ev (SetFinalizer w) tt; Ev (Go (NewWatcher_func1 w)) tt],
      (Some c), None.
    split; [now constructor|].
    apply (NewWatcher_succeeds addr setters W
             (set_connection (Some c) (unconnected o)) []).
    rewrite extend_nil. now apply connect_adopts. }
  destruct (answer W (Dial (Protocol o) addr)) as [c|err] eqn:Hd.
  2: { exists [Ev (Dial (Protocol o) addr) (inr err)], None, (Some err).
       split; [now constructor|].
       apply NewWatcher_fails. now apply connect_dial_fails. }
  destruct (string_dec (Password o) "") as [Hp|Hp].
  { exists [Ev (Dial (Protocol o) addr) (inl c);
            Ev (SetFinalizer w) tt; Ev (Go (NewWatcher_func1 w)) tt],
      (Some c), None.
    split; [now constructor|].
    apply (NewWatcher_succeeds addr setters W
             (set_connection (Some c) (unconnected o))
             [Ev (Dial (Protocol o) addr) (inl c)]).
    now apply connect_no_password. }
  pose (W1 := extend [Ev (Dial (Protocol o) addr) (inl c)] W).
  destruct (answer W1 (Do c "AUTH" [Password o])) as [r [err|]] eqn:Ha.
  - eexists. exists None, (Some err). split.
    + apply (construction_auth_fails o addr w c r err); assumption.
    + apply NewWatcher_fails. now apply connect_auth_fails.
  - exists [Ev (Dial (Protocol o) addr) (inl c);
            Ev (Do c "AUTH" [Password o]) (r, None);
            Ev (SetFinalizer w) tt; Ev (Go (NewWatcher_func1 w)) tt],
      (Some c), None.
    split; [now constructor|].
    apply (NewWatcher_succeeds addr setters W
             (set_connection (Some c) (unconnected o))
             [Ev (Dial (Protocol o) addr) (inl c);
              Ev (Do c "AUTH" [Password o]) (r, None)]).
    now apply connect_auth_passes.
Qed.

(** So whatever [NewWatcher] has returned, it got there by one of them. *)
Lemma NewWatcher_inv addr setters W r W' :
  returns (NewWatcher addr setters) W r W' ->
  exists l oc oerr,
    construction (resolve setters) addr (length (heap W)) l oc oerr /\
    r = (match oerr with
         | None => Some (length (heap W))
         | Some _ => None
         end, oerr) /\
    W' = alloc {| options := resolve setters; connection := oc;
                  callback := None |} (extend l W).
Proof.
  intros H.
  destruct (NewWatcher_outcomes addr setters W) as [l [oc [oerr [Hk Hr]]]].
  destruct (returns_unique _ _ _ _ _ _ H Hr) as [-> ->].
  now exists l, oc, oerr.
Qed.

(** A returned watcher comes from one of the three successful kinds. *)
Lemma NewWatcher_inv_success addr setters W w W' :
  returns (NewWatcher addr setters) W (Some w, None) W' ->
  exists l c,
    construction (resolve setters) addr w l (Some c) None /\
    w = length (heap W) /\
    W' = alloc (connected (resolve setters) c) (extend l W).
Proof.
  intros H.
  destruct (NewWatcher_inv _ _ _ _ _ H) as [l [oc [oerr [Hk [Hr ->]]]]].
  destruct oerr as [err|]; [discriminate|]. injection Hr as ->.
  inversion Hk; subst; eexists; exists c;
    (split; [exact Hk|split; reflexivity]).
Qed.


Lemma remove_self c : remove Conn_eq_dec c [c] = [].
Proof. cbn. destruct (Conn_eq_dec c c); [reflexivity|congruence]. Qed.

(** X13. [NewWatcher] returns a watcher or an error, never both and never
    neither.  With a watcher it has started one goroutine, registered one
    finalizer and closed nothing; with an error it has started and
    registered nothing and left no connection open.  Either way it has
    dialed at most once and sent at most one command. *)
Theorem NewWatcher_watcher_or_error addr setters W r W' :
  returns (NewWatcher addr setters) W r W' ->
  exists l,
    history W' = history W ++ l /\
    ((exists w,
        r = (Some w, None) /\ count is_Go l = 1 /\
        count (is_SetFinalizer w) l = 1 /\ count is_Close l = 0) \/
     (exists err,
        r = (None, Some err) /\ count is_Go l = 0 /\
        count (is_SetFinalizer (length (heap W))) l = 0 /\
        left_open l = [])) /\
    count is_Dial l <= 1 /\ count is_Do l <= 1.
Proof.
  intros H.
  destruct (NewWatcher_inv _ _ _ _ _ H) as [l [oc [oerr [Hk [-> ->]]]]].
  exists l. split; [reflexivity|].
  destruct Hk; unfold count, left_open; cbn; rewrite ?Nat.eqb_refl;
    rewrite ?remove_self; cbn; (split; [|lia]).
  - left. exists (length (heap W)). rewrite ?Nat.eqb_refl. repeat split.
  - right. eexists. repeat split.
  - left. exists (length (heap W)). rewrite ?Nat.eqb_refl. repeat split.
  - right. eexists. repeat split.
    destruct (Conn_eq_dec c c); [reflexivity|congruence].
  - left. exists (length (heap W)). rewrite ?Nat.eqb_refl. repeat split.
Qed.

Lemma NewWatcher_watcher_or_error_witness :
  let W := {| heap := [];
              oracle := steady (inl (conn 1)) (ReplyNil, Some sample_error)
                          (RecvError sample_error);
              history := [] |} in
  let t := NewWatcher "127.0.0.1:6379" [Setters.Password "secret"] in
  exists l,
    history (snd (run 20 t W)) = history W ++ l /\
    ((exists w,
        (None, Some sample_error) = (Some w, None) /\ count is_Go l = 1 /\
        count (is_SetFinalizer w) l = 1 /\ count is_Close l = 0) \/
     (exists err,
        (@None ptr, Some sample_error) = (None, Some err) /\
        count is_Go l = 0 /\
        count (is_SetFinalizer (length (heap W))) l = 0 /\
        left_open l = [])) /\
    count is_Dial l <= 1 /\ count is_Do l <= 1.
Proof.
  apply (NewWatcher_watcher_or_error "127.0.0.1:6379"
           [Setters.Password "secret"]
           {| heap := [];
              oracle := steady (inl (conn 1)) (ReplyNil, Some sample_error)
                          (RecvError sample_error);
              history := [] |}).
  exists 20. reflexivity.
Defined.

(** X2. With no connection supplied and no password, a successful dial
    is all it takes: the constructor sends no command, stores the dialed
    connection in the watcher and leaves it open. *)
Theorem dial_without_password W addr setters c :
  let o := resolve setters in
  let w := length (heap W) in
  let dial := Dial (Protocol o) addr in
  Connection o = None ->
  Password o = "" ->
  answer W dial = inl c ->
  let l := [Ev dial (inl c); Ev (SetFinalizer w) tt;
            Ev (Go (NewWatcher_func1 w)) tt] in
  returns (NewWatcher addr setters) W (Some w, None)
    (alloc (connected o c) (extend l W)) /\
  count is_Do l = 0 /\
  left_open l = [c].
Proof.
  intros o w dial Hc Hp Hd l. split; [|split; reflexivity].
  apply (NewWatcher_succeeds addr setters W
           (set_connection (Some c) (unconnected o)) [Ev dial (inl c)]).
  now apply connect_no_password.
Qed.

Lemma dial_without_password_witness :
  let W := {| heap := [];
              oracle := steady (inl (conn 1)) (ReplyNil, None)
                          (RecvError sample_error);
              history := [] |} in
  let l := [Ev (Dial "unix" "/tmp/redis.sock") (inl (conn 1));
            Ev (SetFinalizer 0) tt; Ev (Go (NewWatcher_func1 0)) tt] in
  returns (NewWatcher "/tmp/redis.sock" [Setters.Protocol "unix"]) W
    (Some 0, None)
    (alloc (connected (resolve [Setters.Protocol "unix"]) (conn 1))
       (extend l W)) /\
  count is_Do l = 0 /\
  left_open l = [conn 1].
Proof.
  exact (dial_without_password
           {| heap := [];
              oracle := steady (inl (conn 1)) (ReplyNil, None)
                          (RecvError sample_error);
              history := [] |}
           "/tmp/redis.sock" [Setters.Protocol "unix"] (conn 1)
           eq_refl eq_refl eq_refl).
Defined.

(** X3. With no connection supplied and a password, a successful dial is
    followed by one [AUTH] with that password; when it is accepted the
    constructor stores the dialed connection in the watcher, leaves it
    open, and returns the watcher. *)
Theorem dial_with_password_accepted W addr setters c r :
  let o := resolve setters in
  let w := length (heap W) in
  let dial := Dial (Protocol o) addr in
  let auth := Do c "AUTH" [Password o] in
  Connection o = None ->
  Password o <> "" ->
  answer W dial = inl c ->
  answer (extend [Ev dial (inl c)] W) auth = (r, None) ->
  let l := [Ev dial (inl c); Ev auth (r, None); Ev (SetFinalizer w) tt;
            Ev (Go (NewWatcher_func1 w)) tt] in
  returns (NewWatcher addr setters) W (Some w, None)
    (alloc (connected o c) (extend l W)) /\
  count is_Close l = 0 /\
  left_open l = [c].
Proof.
  intros o w dial auth Hc Hp Hd Ha l. split; [|split; reflexivity].
  apply (NewWatcher_succeeds addr setters W
           (set_connection (Some c) (unconnected o))
           [Ev dial (inl c); Ev auth (r, None)]).
  now apply connect_auth_passes.
Qed.

Lemma dial_with_password_accepted_witness :
  let W := {| heap := [];
              oracle := steady (inl (conn 1)) (ReplyNil, None)
                          (RecvError sample_error);
              history := [] |} in
  let l := [Ev (Dial "tcp" "127.0.0.1:6379") (inl (conn 1));
            Ev (Do (conn 1) "AUTH" ["secret"]) (ReplyNil, None);
            Ev (SetFinalizer 0) tt; Ev (Go (NewWatcher_func1 0)) tt] in
  returns (NewWatcher "127.0.0.1:6379" [Setters.Password "secret"]) W
    (Some 0, None)
    (alloc (connected (resolve [Setters.Password "secret"]) (conn 1))
       (extend l W)) /\
  count is_Close l = 0 /\
  left_open l = [conn 1].
Proof.
  apply (dial_with_password_accepted
           {| heap := [];
              oracle := steady (inl (conn 1)) (ReplyNil, None)
                          (RecvError sample_error);
              history := [] |}
           "127.0.0.1:6379" [Setters.Password "secret"] (conn 1) ReplyNil);
    [reflexivity | discriminate | reflexivity | reflexivity].
Defined.

(** X7. [NewWatcher] builds its watcher in a new struct: the watchers
    there were are as they were, and the watcher it returns is none of
    them. *)
Theorem NewWatcher_leaves_others addr setters W r W' :
  returns (NewWatcher addr setters) W r W' ->
  (forall p v, nth_error (heap W) p = Some v ->
               nth_error (heap W') p = Some v) /\
  (forall w, fst r = Some w ->
             nth_error (heap W) w = None /\
             exists v, nth_error (heap W') w = Some v).
Proof.
  intros H.
  destruct (NewWatcher_inv _ _ _ _ _ H) as [l [oc [oerr [Hk [-> ->]]]]].
  split.
  - intros p v Hp. cbn. rewrite nth_error_app1; [exact Hp|].
    apply nth_error_Some. congruence.
  - intros w Hw. destruct oerr; [discriminate|]. injection Hw as <-. split.
    + now apply nth_error_None.
    + eexists. now apply load_alloc.
Qed.

Lemma NewWatcher_leaves_others_witness :
  let W := sample_world
             (steady (inl (conn 2)) (ReplyNil, None) (RecvError sample_error))
             (Some (func 7)) in
  let r := run 20 (NewWatcher "127.0.0.1:6379" []) W in
  (forall p v, nth_error (heap W) p = Some v ->
               nth_error (heap (snd r)) p = Some v) /\
  (forall w, Some 1 = Some w ->
             nth_error (heap W) w = None /\
             exists v, nth_error (heap (snd r)) w = Some v).
Proof.
  apply (NewWatcher_leaves_others "127.0.0.1:6379" []
           (sample_world
              (steady (inl (conn 2)) (ReplyNil, None)
                 (RecvError sample_error))
              (Some (func 7)))
           (Some 1, None)).
  exists 20. reflexivity.
Defined.


(** ** The constructed watcher at work *)




(** X12. [Update] on a watcher that [NewWatcher] has just returned
    publishes on the channel the options resolved to, over the connection
    the watcher holds, and returns the error of the command. *)
Theorem Update_after_construction addr setters W w W' :
  returns (NewWatcher addr setters) W (Some w, None) W' ->
  exists c v,
    nth_error (heap W') w = Some v /\ connection v = Some c /\
    let publish :=
      Do c "PUBLISH" [Channel (resolve setters); "casbin rules updated"] in
    returns (Update w) W' (snd (answer W' publish))
      (extend [Ev publish (answer W' publish)] W').
Proof.
  intros H.
  destruct (NewWatcher_inv_success _ _ _ _ _ H) as [l [c [Hk [Hw ->]]]].
  exists c, (connected (resolve setters) c).
  assert (Hload : nth_error
                    (heap (alloc (connected (resolve setters) c) (extend l W)))
                    w
                  = Some (connected (resolve setters) c)).
  { now apply load_alloc. }
  split; [exact Hload|]. split; [reflexivity|].
  exact (Update_returns _ w (connected (resolve setters) c) c Hload eq_refl).
Qed.

Lemma Update_after_construction_witness :
  let W := {| heap := [];
              oracle := steady (inl (conn 1)) (ReplyInt 1, None)
                          (RecvError sample_error);
              history := [] |} in
  let setters := [Setters.Channel "/policies"] in
  let W' := snd (run 20 (NewWatcher "127.0.0.1:6379" setters) W) in
  exists c v,
    nth_error (heap W') 0 = Some v /\ connection v = Some c /\
    let publish :=
      Do c "PUBLISH" [Channel (resolve setters); "casbin rules updated"] in
    returns (Update 0) W' (snd (answer W' publish))
      (extend [Ev publish (answer W' publish)] W').
Proof.
  apply (Update_after_construction "127.0.0.1:6379"
           [Setters.Channel "/policies"]
           {| heap := [];
              oracle := steady (inl (conn 1)) (ReplyInt 1, None)
                          (RecvError sample_error);
              history := [] |}).
  exists 20. reflexivity.
Defined.

(** X10. Construction followed by [finalizer] leaves nothing open: the
    finalizer of a watcher that [NewWatcher] has returned closes the
    connection the watcher holds, whether the constructor dialed it or was
    handed it, and of all the calls of the two no connection stays
    open. *)
Theorem finalizer_after_construction addr setters W w W' :
  returns (NewWatcher addr setters) W (Some w, None) W' ->
  exists c l v,
    history W' = history W ++ l /\
    nth_error (heap W') w = Some v /\ connection v = Some c /\
    (left_open l = [c] \/
     left_open l = [] /\ Connection (resolve setters) = Some c) /\
    let close := Ev (Close c) (answer W' (Close c)) in
    returns (finalizer w) W' tt (extend [close] W') /\
    left_open (l ++ [close]) = [].
Proof.
  intros H.
  destruct (NewWatcher_inv_success _ _ _ _ _ H) as [l [c [Hk [Hw ->]]]].
  exists c, l, (connected (resolve setters) c).
  assert (Hload : nth_error
                    (heap (alloc (connected (resolve setters) c) (extend l W)))
                    w
                  = Some (connected (resolve setters) c)).
  { now apply load_alloc. }
  split; [reflexivity|]. split; [exact Hload|]. split; [reflexivity|].
  split; [|split].
  - inversion Hk; subst; unfold left_open; cbn; auto.
  - now apply finalizer_closes with (v := connected (resolve setters) c).
  - inversion Hk; subst; unfold left_open; cbn; try reflexivity;
      destruct (Conn_eq_dec c c); congruence.
Qed.

Lemma finalizer_after_construction_witness :
  let W := {| heap := [];
              oracle := steady (inl (conn 1)) (ReplyNil, None)
                          (RecvError sample_error);
              history := [] |} in
  let setters := [Setters.Password "secret"] in
  let W' := snd (run 20 (NewWatcher "127.0.0.1:6379" setters) W) in
  exists c l v,
    history W' = history W ++ l /\
    nth_error (heap W') 0 = Some v /\ connection v = Some c /\
    (left_open l = [c] \/
     left_open l = [] /\ Connection (resolve setters) = Some c) /\
    let close := Ev (Close c) (answer W' (Close c)) in
    returns (finalizer 0) W' tt (extend [close] W') /\
    left_open (l ++ [close]) = [].
Proof.
  apply (finalizer_after_construction "127.0.0.1:6379"
           [Setters.Password "secret"]
           {| heap := [];
              oracle := steady (inl (conn 1)) (ReplyNil, None)
                          (RecvError sample_error);
              history := [] |}).
  exists 20. reflexivity.
Defined.


(** ** More on [subscribe] *)

(** X1. When [psc.Subscribe] fails, [subscribe] returns its error at
    once: nothing was deferred yet, so there is no [Unsubscribe], and there
    is no [Receive].  The goroutine prints the error and is at the head of
    its [for] again. *)
Theorem subscribe_failure_returns_error W w v c err :
  nth_error (heap W) w = Some v ->
  connection v = Some c ->
  let call := Subscribe c [Channel (options v)] in
  answer W call = Some err ->
  returns (subscribe w) W (Some err) (extend [Ev call (Some err)] W) /\
  evolves (goroutine (NewWatcher_func1 w)) W (goroutine (NewWatcher_func1 w))
    (extend [Ev call (Some err); Ev (Printf failure_format [err]) tt] W).
Proof.
  intros Hw Hc call Ha. split.
  - exists 2. unfold subscribe. load_with Hw. rewrite Hc.
    unfold psc_Subscribe. cbn [on_conn psc_Conn]. exec. fold call.
    rewrite Ha. exec. now rewrite (called_answer _ _ _ Ha).
  - now apply goroutine_subscribe_fails.
Qed.

Lemma subscribe_failure_returns_error_witness :
  let o : Oracle :=
    fun T e _ =>
      match e in ioE T return T with
      | Subscribe _ _ => Some sample_error
      | e => steady (inl (conn 1)) (ReplyNil, None) (RecvError sample_error)
               _ e []
      end in
  let W := sample_world o None in
  let call := Subscribe (conn 1) ["/casbin"] in
  returns (subscribe 0) W (Some sample_error)
    (extend [Ev call (Some sample_error)] W) /\
  evolves (goroutine (NewWatcher_func1 0)) W (goroutine (NewWatcher_func1 0))
    (extend [Ev call (Some sample_error);
             Ev (Printf failure_format [sample_error]) tt] W).
Proof.
  exact (subscribe_failure_returns_error
           (sample_world
              (fun T e _ =>
                 match e in ioE T return T with
                 | Subscribe _ _ => Some sample_error
                 | e => steady (inl (conn 1)) (ReplyNil, None)
                          (RecvError sample_error) _ e []
                 end)
              None)
           0 (sample_watcher None) (conn 1) sample_error
           eq_refl eq_refl eq_refl).
Defined.

(** X4. A subscription event with a count other than zero, a pattern
    message and a pong are passed over: the receive loop calls nothing,
    not even the callback, and goes round. *)
Theorem other_events_ignored W w v c a :
  nth_error (heap W) w = Some v ->
  connection v = Some c ->
  answer W (Receive c) = a ->
  match a with
  | RecvSubscription s => Count s <> 0%Z
  | RecvPMessage _ | RecvPong _ => True
  | _ => False
  end ->
  let receiving_state :=
    goroutine_in w (receiving w {| psc_Conn := connection v |}) in
  evolves receiving_state W receiving_state (extend [Ev (Receive c) a] W).
Proof.
  intros Hw Hc Ha Hk. rewrite Hc. cbv zeta.
  apply receiving_again. now apply receive_other.
Qed.

Lemma other_events_ignored_witness :
  let s := {| Kind := "subscribe"; sub_Channel := "/casbin"; Count := 1 |} in
  let W := sample_world
             (steady (inl (conn 1)) (ReplyNil, None) (RecvSubscription s))
             (Some (func 7)) in
  let receiving_state :=
    goroutine_in 0 (receiving 0 {| psc_Conn := Some (conn 1) |}) in
  evolves receiving_state W receiving_state
    (extend [Ev (Receive (conn 1)) (RecvSubscription s)] W).
Proof.
  apply (other_events_ignored
           (sample_world
              (steady (inl (conn 1)) (ReplyNil, None)
                 (RecvSubscription
                    {| Kind := "subscribe"; sub_Channel := "/casbin";
                       Count := 1 |}))
              (Some (func 7)))
           0 (sample_watcher (Some (func 7))) (conn 1));
    [reflexivity | reflexivity | reflexivity | discriminate].
Defined.

(** X11. The receive loop does not look at the channel of a message: a
    message on another channel than the configured one is handed to the
    callback like any other, and the callback is given the payload
    only. *)
Theorem message_channel_not_checked W w v c m f :
  nth_error (heap W) w = Some v ->
  connection v = Some c ->
  callback v = Some f ->
  answer W (Receive c) = RecvMessage m ->
  msg_Channel m <> Channel (options v) ->
  let receiving_state :=
    goroutine_in w (receiving w {| psc_Conn := connection v |}) in
  evolves receiving_state W receiving_state
    (extend [Ev (Receive c) (RecvMessage m);
             Ev (Invoke f (string_of_bytes (Data m))) tt] W).
Proof.
  intros Hw Hc Hcb Hm _. rewrite Hc. cbv zeta.
  apply receiving_again. eapply receive_message_callback; eassumption.
Qed.

Lemma message_channel_not_checked_witness :
  let m := {| msg_Channel := "/elsewhere";
              Data := list_byte_of_string "hello" |} in
  let W := sample_world
             (steady (inl (conn 1)) (ReplyNil, None) (RecvMessage m))
             (Some (func 7)) in
  let receiving_state :=
    goroutine_in 0 (receiving 0 {| psc_Conn := Some (conn 1) |}) in
  evolves receiving_state W receiving_state
    (extend [Ev (Receive (conn 1)) (RecvMessage m);
             Ev (Invoke (func 7) "hello") tt] W).
Proof.
  apply (message_channel_not_checked
           (sample_world
              (steady (inl (conn 1)) (ReplyNil, None)
                 (RecvMessage
                    {| msg_Channel := "/elsewhere";
                       Data := list_byte_of_string "hello" |}))
              (Some (func 7)))
           0 (sample_watcher (Some (func 7))) (conn 1)
           {| msg_Channel := "/elsewhere";
              Data := list_byte_of_string "hello" |}
           (func 7));
    [reflexivity | reflexivity | reflexivity | reflexivity | discriminate].
Defined.

(** X6. On a [Watcher] struct without a connection, such as the zero
    struct, [Update], [finalizer], [subscribe] and the goroutine panic on
    the nil connection before they have called anything. *)
Theorem nil_connection_panics W w v :
  nth_error (heap W) w = Some v ->
  connection v = None ->
  forall n,
    run (S (S n)) (Update w) W = (Panicked nil_dereference, W) /\
    run (S (S n)) (finalizer w) W = (Panicked nil_dereference, W) /\
    run (S (S n)) (subscribe w) W = (Panicked nil_dereference, W) /\
    run (S (S n)) (goroutine (NewWatcher_func1 w)) W
    = (Panicked nil_dereference, W).
Proof.
  intros Hw Hc n. repeat split.
  - unfold Update. load_with Hw. now rewrite Hc.
  - unfold finalizer. load_with Hw. now rewrite Hc.
  - unfold subscribe. load_with Hw. now rewrite Hc.
  - rewrite goroutine_unfold. unfold resubscribe, subscribe. exec.
    load_with Hw. now rewrite Hc.
Qed.

Lemma nil_connection_panics_witness :
  let W := {| heap := [Watcher_zero];
              oracle := steady (inl (conn 1)) (ReplyNil, None)
                          (RecvError sample_error);
              history := [] |} in
  run 5 (Update 0) W = (Panicked nil_dereference, W) /\
  run 5 (finalizer 0) W = (Panicked nil_dereference, W) /\
  run 5 (subscribe 0) W = (Panicked nil_dereference, W) /\
  run 5 (goroutine (NewWatcher_func1 0)) W = (Panicked nil_dereference, W).
Proof.
  exact (nil_connection_panics
           {| heap := [Watcher_zero];
              oracle := steady (inl (conn 1)) (ReplyNil, None)
                          (RecvError sample_error);
              history := [] |}
           0 Watcher_zero eq_refl eq_refl 3).
Defined.


(** ** Replacing the callback *)

Lemma nth_error_update_nth_eq {A} (l : list A) : forall p x y,
  nth_error l p = Some y -> nth_error (update_nth p x l) p = Some x.
Proof.
  induction l as [|z l IH]; intros [|p] x y H; cbn in *;
    try discriminate; [reflexivity|eauto].
Qed.

Lemma nth_error_update_nth_neq {A} (l : list A) : forall p q x,
  p <> q -> nth_error (update_nth p x l) q = nth_error l q.
Proof.
  induction l as [|z l IH]; intros [|p] [|q] x H; cbn;
    try reflexivity; [congruence|]. apply IH. congruence.
Qed.

Lemma update_nth_twice {A} (l : list A) : forall p x y,
  update_nth p y (update_nth p x l) = update_nth p y l.
Proof.
  induction l as [|z l IH]; intros [|p] x y; cbn;
    try reflexivity. now rewrite IH.
Qed.

(** X5. The last callback set is the one in force.  Two calls of
    [SetUpdateCallback] call nothing outside, return nil, and leave the
    second callback in the watcher with its options and connection as they
    were and every other watcher untouched; the next message goes to the
    second callback, or to none when it is nil. *)
Theorem SetUpdateCallback_last_wins W w v c f g :
  nth_error (heap W) w = Some v ->
  connection v = Some c ->
  let W2 := write w (set_callback g v) W in
  returns (SetUpdateCallback w f;; SetUpdateCallback w g) W None W2 /\
  nth_error (heap W2) w
  = Some {| options := options v; connection := connection v;
            callback := g |} /\
  (forall p, p <> w -> nth_error (heap W2) p = nth_error (heap W) p) /\
  history W2 = history W /\
  forall m,
    answer W2 (Receive c) = RecvMessage m ->
    let receiving_state :=
      goroutine_in w (receiving w {| psc_Conn := Some c |}) in
    evolves receiving_state W2 receiving_state
      (extend (Ev (Receive c) (RecvMessage m) ::
               match g with
               | Some h => [Ev (Invoke h (string_of_bytes (Data m))) tt]
               | None => []
               end) W2).
Proof.
  intros Hw Hc W2.
  assert (Hw2 : nth_error (heap W2) w = Some (set_callback g v)).
  { now apply nth_error_update_nth_eq with (y := v). }
  split; [|split; [exact Hw2|split; [|split; [reflexivity|]]]].
  - apply returns_then with (r := None) (W' := write w (set_callback f v) W).
    + now apply SetUpdateCallback_stores.
    + replace W2
        with (write w (set_callback g (set_callback f v))
                (write w (set_callback f v) W)).
      * apply SetUpdateCallback_stores.
        now apply nth_error_update_nth_eq with (y := v).
      * unfold W2, write. cbn. now rewrite update_nth_twice.
  - intros p Hp. now apply nth_error_update_nth_neq.
  - intros m Hm. cbv zeta. apply receiving_again.
    destruct g as [h|].
    + eapply receive_message_callback; [exact Hw2|exact Hm|reflexivity].
    + eapply receive_message_nil; [exact Hw2|exact Hm|reflexivity].
Qed.

Lemma SetUpdateCallback_last_wins_witness :
  let W := sample_world
             (steady (inl (conn 1)) (ReplyNil, None)
                (RecvMessage sample_message))
             None in
  let W2 := write 0 (set_callback (Some (func 9)) (sample_watcher None)) W in
  returns (SetUpdateCallback 0 (Some (func 7));;
           SetUpdateCallback 0 (Some (func 9))) W None W2 /\
  nth_error (heap W2) 0
  = Some {| options := default_options; connection := Some (conn 1);
            callback := Some (func 9) |} /\
  (forall p, p <> 0 -> nth_error (heap W2) p = nth_error (heap W) p) /\
  history W2 = history W /\
  forall m,
    answer W2 (Receive (conn 1)) = RecvMessage m ->
    let receiving_state :=
      goroutine_in 0 (receiving 0 {| psc_Conn := Some (conn 1) |}) in
    evolves receiving_state W2 receiving_state
      (extend [Ev (Receive (conn 1)) (RecvMessage m);
               Ev (Invoke (func 9) (string_of_bytes (Data m))) tt] W2).
Proof.
  exact (SetUpdateCallback_last_wins
           (sample_world
              (steady (inl (conn 1)) (ReplyNil, None)
                 (RecvMessage sample_message))
              None)
           0 (sample_watcher None) (conn 1) (Some (func 7)) (Some (func 9))
           eq_refl eq_refl).
Defined.

(** The goroutine sees a callback set while it runs: set after the
    constructor has returned, it is called on the next message. *)
Example callback_set_after_construction :
  let W := {| heap := [];
              oracle := steady (inl (conn 1)) (ReplyNil, None)
                          (RecvMessage sample_message);
              history := [] |} in
  let W1 := snd (run 20 (NewWatcher "127.0.0.1:6379" []) W) in
  let W2 := snd (run 6 (goroutine (NewWatcher_func1 0)) W1) in
  let W3 := snd (run 5 (SetUpdateCallback 0 (Some (func 7))) W2) in
  history
    (snd (run 3 (goroutine_in 0 (receiving 0 {| psc_Conn := Some (conn 1) |}))
            W3))
  = [Ev (Dial "tcp" "127.0.0.1:6379") (inl (conn 1));
     Ev (SetFinalizer 0) tt;
     Ev (Go (NewWatcher_func1 0)) tt;
     Ev (Subscribe (conn 1) ["/casbin"]) None;
     Ev (Receive (conn 1)) (RecvMessage sample_message);
     Ev (Receive (conn 1)) (RecvMessage sample_message);
     Ev (Receive (conn 1)) (RecvMessage sample_message);
     Ev (Invoke (func 7) "casbin rules updated") tt].
Proof. reflexivity. Qed.


(** ** The goroutine keeps to the publish/subscribe protocol *)

Lemma pubsub_from_app b l1 l2 :
  pubsub_from b (l1 ++ l2) = fold_left pubsub_step l2 (pubsub_from b l1).
Proof. unfold pubsub_from. now rewrite fold_left_app. Qed.

Lemma pubsub_stuck l : fold_left pubsub_step l None = None.
Proof. induction l as [|x l IH]; [reflexivity|exact IH]. Qed.

(** A call out of place stays out of place. *)
Lemma pubsub_prefix b l1 l2 :
  pubsub_from b (l1 ++ l2) <> None -> pubsub_from b l1 <> None.
Proof.
  rewrite pubsub_from_app. intros H Hn. rewrite Hn in H.
  now rewrite pubsub_stuck in H.
Qed.

(** What holds of the calls of runs as long as one likes, and of every
    part of them from the start, holds of the calls of every run. *)
Lemma run_any_fuel (t : itree goE Empty_set) W (P : list Entry -> Prop) :
  (forall l1 l2, P (l1 ++ l2) -> P l1) ->
  (forall N, exists k l,
     run k t W = (Running, extend l W) /\ N <= length l /\ P l) ->
  forall fuel,
    exists l, history (snd (run fuel t W)) = history W ++ l /\ P l.
Proof.
  intros Hpre Hlong fuel.
  destruct (Hlong (S fuel)) as [k [l [Hk [HN Hl]]]].
  assert (Hlt : fuel < k).
  { destruct (run_history k t W) as [l' [Hh Hlen]].
    rewrite Hk in Hh. cbn in Hh. apply app_inv_head in Hh. subst l'. lia. }
  destruct (run_history fuel t W) as [l1 [H1 _]].
  destruct (run_prefix fuel (k - fuel) t W) as [l2 H2].
  replace (fuel + (k - fuel)) with k in H2 by lia.
  rewrite Hk, H1 in H2. cbn in H2. rewrite <- app_assoc in H2.
  apply app_inv_head in H2. subst l.
  exists l1. split; [exact H1|]. now apply Hpre with (l2 := l2).
Qed.

Section Protocol.

Context (w : ptr) (v : Watcher) (c : Conn).
Hypothesis Hc : connection v = Some c.

(** One turn of the goroutine keeps to the protocol, and ends subscribed
    exactly when it ends in the receive loop. *)
Lemma goroutine_turn_pubsub W t b :
  nth_error (heap W) w = Some v -> loop_state w c b t ->
  exists t' b' l,
    loop_state w c b' t' /\ evolves t W t' (extend l W) /\ l <> [] /\
    pubsub_from b l = Some b'.
Proof.
  intros Hw [|].
  - destruct (answer W (Subscribe c [Channel (options v)])) as [err|] eqn:Ha.
    + exists (goroutine (NewWatcher_func1 w)), false,
        [Ev (Subscribe c [Channel (options v)]) (Some err);
         Ev (Printf failure_format [err]) tt].
      split; [constructor|]. split.
      { now apply goroutine_subscribe_fails. }
      split; [discriminate|reflexivity].
    + exists (goroutine_in w (receiving w {| psc_Conn := Some c |})), true,
        [Ev (Subscribe c [Channel (options v)]) None].
      split; [constructor|]. split.
      { now apply goroutine_subscribes. }
      split; [discriminate|reflexivity].
  - destruct (answer W (Receive c)) as [err|m|s|pm|pg] eqn:Ha.
    + pose (W1 := extend [Ev (Receive c) (RecvError err)] W).
      exists (goroutine (NewWatcher_func1 w)), false,
        ([Ev (Receive c) (RecvError err)] ++
         [Ev (Unsubscribe c []) (answer W1 (Unsubscribe c []));
          Ev (Printf failure_format [err]) tt]).
      split; [constructor|]. split.
      { apply receiving_evolves. eapply evolves_trans.
        - eapply receive_error; eassumption.
        - rewrite <- extend_extend.
          apply (goroutine_leaves W1 w c (Some err)). }
      split; [discriminate|reflexivity].
    + destruct (callback v) as [f|] eqn:Hcb.
      * exists (goroutine_in w (receiving w {| psc_Conn := Some c |})), true.
        eexists. split; [constructor|]. split.
        { apply receiving_again.
          eapply receive_message_callback; eassumption. }
        split; [discriminate|reflexivity].
      * exists (goroutine_in w (receiving w {| psc_Conn := Some c |})), true.
        eexists. split; [constructor|]. split.
        { apply receiving_again. eapply receive_message_nil; eassumption. }
        split; [discriminate|reflexivity].
    + destruct (Z.eq_dec (Count s) 0) as [Hs|Hs].
      * pose (W1 := extend [Ev (Receive c) (RecvSubscription s)] W).
        exists (goroutine (NewWatcher_func1 w)), false,
          ([Ev (Receive c) (RecvSubscription s)] ++
           [Ev (Unsubscribe c []) (answer W1 (Unsubscribe c []))]).
        split; [constructor|]. split.
        { apply receiving_evolves. eapply evolves_trans.
          - eapply receive_count_zero; eassumption.
          - rewrite <- extend_extend.
            apply (goroutine_leaves W1 w c None). }
        split; [discriminate|reflexivity].
      * exists (goroutine_in w (receiving w {| psc_Conn := Some c |})), true.
        eexists. split; [constructor|]. split.
        { apply receiving_again. eapply receive_other; eassumption. }
        split; [discriminate|reflexivity].
    + exists (goroutine_in w (receiving w {| psc_Conn := Some c |})), true.
      eexists. split; [constructor|]. split.
      { apply receiving_again. eapply receive_other; [eassumption|exact I]. }
      split; [discriminate|reflexivity].
    + exists (goroutine_in w (receiving w {| psc_Conn := Some c |})), true.
      eexists. split; [constructor|]. split.
      { apply receiving_again. eapply receive_other; [eassumption|exact I]. }
      split; [discriminate|reflexivity].
Qed.

Lemma goroutine_turns_pubsub N : forall W t b,
  nth_error (heap W) w = Some v -> loop_state w c b t ->
  exists t' b' l,
    loop_state w c b' t' /\ evolves t W t' (extend l W) /\ N <= length l /\
    pubsub_from b l = Some b'.
Proof.
  induction N as [|N IH]; intros W t b Hw Ht.
  - exists t, b, []. rewrite extend_nil.
    repeat split; [exact Ht|apply evolves_refl|cbn; lia].
  - destruct (IH W t b Hw Ht) as [t1 [b1 [l1 [Ht1 [H1 [HN Hl1]]]]]].
    destruct (goroutine_turn_pubsub (extend l1 W) t1 b1 Hw Ht1)
      as [t2 [b2 [l2 [Ht2 [H2 [Hne Hl2]]]]]].
    exists t2, b2, (l1 ++ l2). split; [exact Ht2|]. split.
    { rewrite <- extend_extend. eapply evolves_trans; eassumption. }
    split.
    { rewrite length_app. destruct l2; [congruence|cbn; lia]. }
    rewrite pubsub_from_app, Hl1. exact Hl2.
Qed.

Lemma goroutine_pubsub W t b :
  nth_error (heap W) w = Some v -> loop_state w c b t ->
  forall fuel,
    exists l, history (snd (run fuel t W)) = history W ++ l /\
              pubsub_from b l <> None.
Proof.
  intros Hw Ht. apply run_any_fuel.
  - intros l1 l2. apply pubsub_prefix.
  - intros N.
    destruct (goroutine_turns_pubsub N W t b Hw Ht)
      as [t' [b' [l [Ht' [[k Hk] [HN Hl]]]]]].
    exists k, l. specialize (Hk 0).
    rewrite Nat.add_0_r, run_zero in Hk.
    split; [exact Hk|]. split; [exact HN|]. now rewrite Hl.
Qed.

End Protocol.

(** X9. The goroutine keeps to the protocol of a subscriber, whatever the
    broker answers and however long it runs: it subscribes only while not
    subscribed, it receives and calls the callback only while subscribed,
    it unsubscribes each subscription that succeeded before it prints or
    subscribes again, never one that failed, and it makes no call of
    another kind. *)
Theorem goroutine_follows_pubsub_protocol W w v c :
  nth_error (heap W) w = Some v ->
  connection v = Some c ->
  forall fuel,
    exists l,
      history (snd (run fuel (goroutine (NewWatcher_func1 w)) W))
      = history W ++ l /\
      pubsub_from false l <> None.
Proof.
  intros Hw Hc.
  exact (goroutine_pubsub w v c Hc W _ false Hw (state_head w c)).
Qed.

Lemma goroutine_follows_pubsub_protocol_witness :
  let W := sample_world
             (steady (inl (conn 1)) (ReplyNil, None) (RecvError sample_error))
             (Some (func 7)) in
  exists l,
    history (snd (run 40 (goroutine (NewWatcher_func1 0)) W))
    = history W ++ l /\
    pubsub_from false l <> None.
Proof.
  exact (goroutine_follows_pubsub_protocol
           (sample_world
              (steady (inl (conn 1)) (ReplyNil, None)
                 (RecvError sample_error))
              (Some (func 7)))
           0 (sample_watcher (Some (func 7))) (conn 1) eq_refl eq_refl 40).
Defined.

(** The protocol tells calls in place from calls out of place. *)
Example pubsub_accepts :
  pubsub_from false
    [Ev (Subscribe (conn 1) ["/casbin"]) None;
     Ev (Receive (conn 1)) (RecvMessage sample_message);
     Ev (Invoke (func 7) "casbin rules updated") tt;
     Ev (Receive (conn 1)) (RecvError sample_error);
     Ev (Unsubscribe (conn 1) []) None;
     Ev (Printf failure_format [sample_error]) tt]
  = Some false.
Proof. reflexivity. Qed.

Example pubsub_rejects_receive_before_subscribe :
  pubsub_from false [Ev (Receive (conn 1)) (RecvError sample_error)] = None.
Proof. reflexivity. Qed.

Example pubsub_rejects_unsubscribe_after_failure :
  pubsub_from false
    [Ev (Subscribe (conn 1) ["/casbin"]) (Some sample_error);
     Ev (Unsubscribe (conn 1) []) None]
  = None.
Proof. reflexivity. Qed.

Example pubsub_rejects_close :
  pubsub_from true [Ev (Close (conn 1)) None] = None.
Proof. reflexivity. Qed.


(** ** Runs of messages, of failures and of updates *)

(** X15. Messages are handed to the callback one by one and in order:
    when the broker sends the messages [ms] one after the other, the
    receive loop calls the registered callback once for each, with its
    payload, right after receiving it, and is ready for the next. *)
Theorem messages_delivered_in_order w v c f ms : forall W,
  nth_error (heap W) w = Some v ->
  connection v = Some c ->
  callback v = Some f ->
  (forall ms1 m ms2,
     ms = ms1 ++ m :: ms2 ->
     oracle W _ (Receive c) (history W ++ delivered c f ms1)
     = RecvMessage m) ->
  let receiving_state :=
    goroutine_in w (receiving w {| psc_Conn := connection v |}) in
  evolves receiving_state W receiving_state (extend (delivered c f ms) W).
Proof.
  induction ms as [|m ms IH]; intros W Hw Hc Hcb Hms; cbv zeta.
  - cbn. rewrite extend_nil. apply evolves_refl.
  - pose (turn := [Ev (Receive c) (RecvMessage m);
                   Ev (Invoke f (string_of_bytes (Data m))) tt]).
    change (delivered c f (m :: ms)) with (turn ++ delivered c f ms).
    rewrite <- extend_extend.
    apply evolves_trans
      with (t2 := goroutine_in w (receiving w {| psc_Conn := connection v |}))
           (W2 := extend turn W).
    + rewrite Hc. apply receiving_again.
      eapply receive_message_callback; [exact Hw| |exact Hcb].
      unfold answer. specialize (Hms [] m ms eq_refl).
      cbn in Hms. now rewrite app_nil_r in Hms.
    + apply (IH (extend turn W)); try assumption.
      intros ms1 m' ms2 Heq. cbn [oracle history extend].
      rewrite <- app_assoc.
      apply (Hms (m :: ms1) m' ms2). now rewrite Heq.
Qed.

Lemma messages_delivered_in_order_witness :
  let m1 := {| msg_Channel := "/casbin"; Data := list_byte_of_string "a" |} in
  let m2 := {| msg_Channel := "/casbin"; Data := list_byte_of_string "b" |} in
  let W := sample_world (scripted [RecvMessage m1; RecvMessage m2])
             (Some (func 7)) in
  let receiving_state :=
    goroutine_in 0 (receiving 0 {| psc_Conn := Some (conn 1) |}) in
  evolves receiving_state W receiving_state
    (extend [Ev (Receive (conn 1)) (RecvMessage m1);
             Ev (Invoke (func 7) "a") tt;
             Ev (Receive (conn 1)) (RecvMessage m2);
             Ev (Invoke (func 7) "b") tt] W).
Proof.
  apply (messages_delivered_in_order 0 (sample_watcher (Some (func 7)))
           (conn 1) (func 7)
           [{| msg_Channel := "/casbin"; Data := list_byte_of_string "a" |};
            {| msg_Channel := "/casbin"; Data := list_byte_of_string "b" |}]);
    try reflexivity.
  intros [|x [|y [|z ms1]]] m ms2 H; inversion H; subst; try reflexivity.
Defined.

(** X14. While the broker refuses every subscription, the goroutine
    does nothing but subscribe and print, turn after turn and without
    end: after [n] turns it has called [Subscribe] and [Printf] [n] times
    each, it has not received or unsubscribed, and it is at the head of its
    [for] again. *)
Theorem refused_subscriptions_retried w v c err n : forall W,
  nth_error (heap W) w = Some v ->
  connection v = Some c ->
  (forall h, oracle W _ (Subscribe c [Channel (options v)]) h = Some err) ->
  evolves (goroutine (NewWatcher_func1 w)) W (goroutine (NewWatcher_func1 w))
    (extend (failed_turns c (Channel (options v)) err n) W).
Proof.
  induction n as [|n IH]; intros W Hw Hc Hall.
  - cbn. rewrite extend_nil. apply evolves_refl.
  - pose (turn := [Ev (Subscribe c [Channel (options v)]) (Some err);
                   Ev (Printf failure_format [err]) tt]).
    change (failed_turns c (Channel (options v)) err (S n))
      with (turn ++ failed_turns c (Channel (options v)) err n).
    rewrite <- extend_extend.
    apply evolves_trans
      with (t2 := goroutine (NewWatcher_func1 w)) (W2 := extend turn W).
    + apply goroutine_subscribe_fails with (v := v);
        first [assumption | apply Hall].
    + apply (IH (extend turn W)); assumption.
Qed.

Lemma refused_subscriptions_retried_witness :
  let W := sample_world (unreachable sample_error) None in
  let head := goroutine (NewWatcher_func1 0) in
  evolves head W head
    (extend [Ev (Subscribe (conn 1) ["/casbin"]) (Some sample_error);
             Ev (Printf failure_format [sample_error]) tt;
             Ev (Subscribe (conn 1) ["/casbin"]) (Some sample_error);
             Ev (Printf failure_format [sample_error]) tt;
             Ev (Subscribe (conn 1) ["/casbin"]) (Some sample_error);
             Ev (Printf failure_format [sample_error]) tt] W).
Proof.
  apply (refused_subscriptions_retried 0 (sample_watcher None) (conn 1)
           sample_error 3 (sample_world (unreachable sample_error) None));
    reflexivity.
Defined.

(** X16. Whatever the broker answers and however long the goroutine
    runs, its calls are its own: it subscribes to the channel of its
    watcher only, on the connection of its watcher; it unsubscribes and
    receives on that connection only; it calls no callback but the one
    registered; and what it prints is the subscription failure. *)
Theorem goroutine_calls_are_its_own W w v c :
  nth_error (heap W) w = Some v ->
  connection v = Some c ->
  forall fuel,
    exists l,
      history (snd (run fuel (goroutine (NewWatcher_func1 w)) W))
      = history W ++ l /\
      Forall (goroutine_entry v c) l.
Proof.
  intros Hw Hc fuel.
  destruct (goroutine_forever w v c Hc W _ Hw (at_head w c)) as [Hall _].
  now destruct (Hall fuel).
Qed.

Lemma goroutine_calls_are_its_own_witness :
  let W := sample_world (scripted [RecvMessage sample_message]) None in
  exists l,
    history (snd (run 40 (goroutine (NewWatcher_func1 0)) W))
    = history W ++ l /\
    Forall (goroutine_entry (sample_watcher None) (conn 1)) l.
Proof.
  exact (goroutine_calls_are_its_own
           (sample_world (scripted [RecvMessage sample_message]) None)
           0 (sample_watcher None) (conn 1) eq_refl eq_refl 40).
Defined.

(** X17. A failed [Update] spoils nothing: a second [Update] publishes
    again, the same marker on the same channel over the same connection,
    and returns the error of its own command, whatever became of the
    first. *)
Theorem Update_twice W w v c :
  nth_error (heap W) w = Some v ->
  connection v = Some c ->
  let publish :=
    Do c "PUBLISH" [Channel (options v); "casbin rules updated"] in
  let a1 := answer W publish in
  let a2 := answer (extend [Ev publish a1] W) publish in
  returns (e1 <- Update w;; e2 <- Update w;; Ret (e1, e2)) W
    (snd a1, snd a2) (extend [Ev publish a1; Ev publish a2] W).
Proof.
  intros Hw Hc publish a1 a2.
  apply returns_then with (r := snd a1) (W' := extend [Ev publish a1] W).
  { now apply Update_returns. }
  apply returns_then
    with (r := snd a2)
         (W' := extend [Ev publish a2] (extend [Ev publish a1] W)).
  { now apply (Update_returns (extend [Ev publish a1] W) w v c). }
  exists 0. now rewrite extend_extend.
Qed.

Lemma Update_twice_witness :
  let W := sample_world
             (steady (inl (conn 1)) (ReplyNil, Some sample_error)
                (RecvError sample_error))
             None in
  let publish := Do (conn 1) "PUBLISH" ["/casbin"; "casbin rules updated"] in
  returns (e1 <- Update 0;; e2 <- Update 0;; Ret (e1, e2)) W
    (Some sample_error, Some sample_error)
    (extend [Ev publish (ReplyNil, Some sample_error);
             Ev publish (ReplyNil, Some sample_error)] W).
Proof.
  exact (Update_twice
           (sample_world
              (steady (inl (conn 1)) (ReplyNil, Some sample_error)
                 (RecvError sample_error))
              None)
           0 (sample_watcher None) (conn 1) eq_refl eq_refl).
Defined.

(** The goroutine against a broker that sends two messages with a pong
    between them and then fails. *)
Example goroutine_on_script :
  history
    (snd (run 15 (goroutine (NewWatcher_func1 0))
            (sample_world
               (scripted [RecvMessage sample_message;
                          RecvPong {| pong_Data := "" |};
                          RecvMessage sample_message])
               (Some (func 7)))))
  = [Ev (Subscribe (conn 1) ["/casbin"]) None;
     Ev (Receive (conn 1)) (RecvMessage sample_message);
     Ev (Invoke (func 7) "casbin rules updated") tt;
     Ev (Receive (conn 1)) (RecvPong {| pong_Data := "" |});
     Ev (Receive (conn 1)) (RecvMessage sample_message);
     Ev (Invoke (func 7) "casbin rules updated") tt;
     Ev (Receive (conn 1)) (RecvError sample_error);
     Ev (Unsubscribe (conn 1) []) None;
     Ev (Printf failure_format [sample_error]) tt].
Proof. reflexivity. Qed.


(** ** One call of [subscribe], from start to end *)

(** The receive loop, whatever follows it, hands on the messages the
    broker sends one after the other. *)
Lemma receive_loop_delivers {R} w v c f (K : option error -> itree goE R)
  ms : forall W,
  nth_error (heap W) w = Some v ->
  callback v = Some f ->
  (forall ms1 m ms2,
     ms = ms1 ++ m :: ms2 ->
     oracle W _ (Receive c) (history W ++ delivered c f ms1)
     = RecvMessage m) ->
  evolves (x <- receive_loop w {| psc_Conn := Some c |};; K x) W
          (x <- receive_loop w {| psc_Conn := Some c |};; K x)
          (extend (delivered c f ms) W).
Proof.
  induction ms as [|m ms IH]; intros W Hw Hcb Hms.
  - cbn. rewrite extend_nil. apply evolves_refl.
  - pose (turn := [Ev (Receive c) (RecvMessage m);
                   Ev (Invoke f (string_of_bytes (Data m))) tt]).
    change (delivered c f (m :: ms)) with (turn ++ delivered c f ms).
    rewrite <- extend_extend.
    apply evolves_trans
      with (t2 := x <- receive_loop w {| psc_Conn := Some c |};; K x)
           (W2 := extend turn W).
    + eapply receive_message_callback; [exact Hw| |exact Hcb].
      unfold answer. specialize (Hms [] m ms eq_refl).
      cbn in Hms. now rewrite app_nil_r in Hms.
    + apply (IH (extend turn W)); try assumption.
      intros ms1 m' ms2 Heq. cbn [oracle history extend].
      rewrite <- app_assoc.
      apply (Hms (m :: ms1) m' ms2). now rewrite Heq.
Qed.

(** X18. One whole call of [subscribe]: when the subscription succeeds
    and the broker sends the messages [ms] and then an error, [subscribe]
    subscribes, hands each message to the callback in order, calls the
    deferred [Unsubscribe] once, after the error, and returns that
    error. *)
Theorem subscribe_returns_first_error W w v c f ms err :
  nth_error (heap W) w = Some v ->
  connection v = Some c ->
  callback v = Some f ->
  let call := Ev (Subscribe c [Channel (options v)]) None in
  oracle W _ (Subscribe c [Channel (options v)]) (history W) = None ->
  (forall ms1 m ms2,
     ms = ms1 ++ m :: ms2 ->
     oracle W _ (Receive c) (history W ++ call :: delivered c f ms1)
     = RecvMessage m) ->
  oracle W _ (Receive c) (history W ++ call :: delivered c f ms)
  = RecvError err ->
  exists a,
    returns (subscribe w) W (Some err)
      (extend (call :: delivered c f ms ++
               [Ev (Receive c) (RecvError err); Ev (Unsubscribe c []) a]) W).
Proof.
  intros Hw Hc Hcb call Hsub Hms Herr.
  pose (W1 := extend [call] W).
  pose (W2 := extend (delivered c f ms) W1).
  pose (W3 := extend [Ev (Receive c) (RecvError err)] W2).
  exists (answer W3 (Unsubscribe c [])).
  pose (K := fun r : option error =>
               psc_Unsubscribe {| psc_Conn := Some c |} [];; Ret r).
  apply evolves_returns
    with (t' := x <- receive_loop w {| psc_Conn := Some c |};; K x)
         (W' := W1).
  { exists 2. intros n. unfold subscribe. cbn [Nat.add]. exec.
    load_with Hw. rewrite Hc. unfold psc_Subscribe.
    cbn [on_conn psc_Conn]. exec.
    unfold answer at 1. rewrite Hsub. unfold receiving, defer.
    now rewrite (called_answer _ _ _ Hsub). }
  apply evolves_returns with (t' := K (Some err)) (W' := W3).
  { eapply evolves_trans.
    - apply (receive_loop_delivers w v c f K ms W1 Hw Hcb).
      intros ms1 m ms2 Heq. cbn [oracle history extend W1].
      rewrite <- app_assoc. exact (Hms ms1 m ms2 Heq).
    - apply receive_error. unfold answer. cbn [oracle history extend W2 W1].
      rewrite <- app_assoc. exact Herr. }
  exists 1. unfold K, psc_Unsubscribe. cbn [on_conn psc_Conn]. exec.
  unfold called, W3, W2, W1. now rewrite !extend_extend.
Qed.

Lemma subscribe_returns_first_error_witness :
  let m1 := {| msg_Channel := "/casbin"; Data := list_byte_of_string "a" |} in
  let m2 := {| msg_Channel := "/casbin"; Data := list_byte_of_string "b" |} in
  let W := sample_world (scripted [RecvMessage m1; RecvMessage m2])
             (Some (func 7)) in
  exists a,
    returns (subscribe 0) W (Some sample_error)
      (extend [Ev (Subscribe (conn 1) ["/casbin"]) None;
               Ev (Receive (conn 1)) (RecvMessage m1);
               Ev (Invoke (func 7) "a") tt;
               Ev (Receive (conn 1)) (RecvMessage m2);
               Ev (Invoke (func 7) "b") tt;
               Ev (Receive (conn 1)) (RecvError sample_error);
               Ev (Unsubscribe (conn 1) []) a] W).
Proof.
  apply (subscribe_returns_first_error
           (sample_world
              (scripted
                 [RecvMessage {| msg_Channel := "/casbin";
                                 Data := list_byte_of_string "a" |};
                  RecvMessage {| msg_Channel := "/casbin";
                                 Data := list_byte_of_string "b" |}])
              (Some (func 7)))
           0 (sample_watcher (Some (func 7))) (conn 1) (func 7)
           [{| msg_Channel := "/casbin"; Data := list_byte_of_string "a" |};
            {| msg_Channel := "/casbin"; Data := list_byte_of_string "b" |}]
           sample_error);
    try reflexivity.
  intros [|x [|y [|z ms1]]] m ms2 H; inversion H; subst; try reflexivity.
Defined.
